(** * Pod security policy template controller

    A shallow embedding of
    [pkg/controllers/user/rbac/podsecuritypolicy/template.go]: the two index
    functions, the wiring done by [RegisterTemplate] and the three lifecycle
    handlers [Create], [Updated] and [Remove].

    Go pointers are addresses into a heap of objects, so that the difference
    between writing through a cached pointer and writing to a [DeepCopy] is
    visible.  Calls to the API server go through the two client interfaces of
    the [Lifecycle] struct; every call is recorded, with its outcome, in the
    order in which it is issued.  A Go panic (failed type assertion, write to a
    nil map) is an outcome of its own. *)

From stdpp Require Import gmap strings list.

(** ** Data *)

(** A Go [error] is represented by its message; [nil] is [None]. *)
Definition error := string.

(** [metav1.ObjectMeta], restricted to the fields the controller reads or
    writes.  [Annotations] is a Go map and may be nil. *)
Record ObjectMeta := mkObjectMeta {
  Name : string;
  Namespace : string;
  ResourceVersion : string;
  Annotations : option (gmap string string)
}.

(** What the file takes from elsewhere in its package and from the
    Kubernetes API: the policy spec type of [k8s.io/api/policy/v1beta1]
    (copied as a whole, never inspected) and the two annotation keys, which
    are constants of the package declared in another file. *)
Class Package := {
  PodSecurityPolicySpec : Type;
  podSecurityPolicyTemplateParentAnnotation : string;
  podSecurityPolicyTemplateVersionAnnotation : string
}.

(** The state of the API server behind the two clients. *)
Class Server := {
  Store : Type
}.

Definition policyByPSPTParentAnnotationIndex : string :=
  "podsecuritypolicy.rbac.user.cattle.io/parent-annotation".
Definition clusterRoleByPSPTNameIndex : string :=
  "podsecuritypolicy.rbac.user.cattle.io/pspt-name".

(** Reading a Go map: a missing key, and any key of a nil map, gives the zero
    value. *)
Definition mapIndex (m : option (gmap string string)) (k : string) : string :=
  match m with
  | Some m => default "" (m !! k)
  | None => ""
  end.

(** Writing a Go map: [None] when the map is nil (the runtime panics). *)
Definition mapAssign (m : option (gmap string string)) (k v : string)
  : option (gmap string string) :=
  match m with
  | Some m => Some (<[k := v]> m)
  | None => None
  end.

Definition setAnnotations (m : ObjectMeta) (a : option (gmap string string)) : ObjectMeta :=
  {| Name := Name m; Namespace := Namespace m;
     ResourceVersion := ResourceVersion m; Annotations := a |}.

(** Two objects of one kind are the same object of the cluster when they
    agree on namespace and name: the key of an informer's store. *)
Definition sameObject (m1 m2 : ObjectMeta) : Prop :=
  Namespace m1 = Namespace m2 ∧ Name m1 = Name m2.

#[global] Instance sameObject_dec m1 m2 : Decision (sameObject m1 m2).
Proof. unfold sameObject. apply _. Defined.

(** What running a piece of Go code gives: a result, or a panic. *)
Inductive Outcome (A : Type) :=
| Returned (a : A)
| Panicked (msg : string).
Arguments Returned {A} a.
Arguments Panicked {A} msg.

Section Model.
Context `{Package, Server}.

Record PodSecurityPolicy := mkPodSecurityPolicy {
  policyMeta : ObjectMeta;
  policySpec : PodSecurityPolicySpec
}.

Record PodSecurityPolicyTemplate := mkPodSecurityPolicyTemplate {
  templateMeta : ObjectMeta;
  templateSpec : PodSecurityPolicySpec
}.

(** [rbac.ClusterRole]; its rules are never looked at here. *)
Record ClusterRole := mkClusterRole {
  roleMeta : ObjectMeta
}.

(** A heap cell: what an [interface{}] taken from an informer store may point
    to.  [ObjOther] stands for a value of any other dynamic type. *)
Inductive Object :=
| ObjPolicy (p : PodSecurityPolicy)
| ObjClusterRole (r : ClusterRole)
| ObjOther (kind : string).

Definition ptr := nat.

(** ** The API server clients and the call log *)

Inductive Call :=
| CallUpdate (p : PodSecurityPolicy)
| CallDelete (name : string)
| CallDeleteNamespaced (namespace name : string).

(** An event of the log: a call and the error it gave, if any. *)
Local Abbreviation Event := (Call * option error)%type.

(** [v1beta12.PodSecurityPolicyInterface]: the two methods used.  [Update]
    also returns the stored object, which [Updated] discards. *)
Record PodSecurityPolicyInterface := mkPodSecurityPolicyInterface {
  Update : PodSecurityPolicy → Store → option error * Store;
  Delete : string → Store → option error * Store
}.

(** [v12.ClusterRoleInterface]. *)
Record ClusterRoleInterface := mkClusterRoleInterface {
  DeleteNamespaced : string → string → Store → option error * Store
}.

(** [cache.IndexFunc] and [cache.Indexer].  An index function reads the
    object it is given, hence the heap argument. *)
Definition IndexFunc : Type := list Object → ptr → list string * option error.

Record Indexer := {
  ByIndex : list Object → string → string → list ptr * option error
}.

(** The [Lifecycle] struct.  Its two listers are never used by the handlers
    and are left out. *)
Record Lifecycle := {
  policies : PodSecurityPolicyInterface;
  clusterRoles : ClusterRoleInterface;
  policyIndexer : Indexer;
  clusterRoleIndexer : Indexer
}.

Record World := mkWorld {
  heap : list Object;
  store : Store;
  calls : list Event
}.

(** ** Go computations: a state transformer with an outcome *)

Definition Go (A : Type) : Type := World → Outcome A * World.

Definition ret {A} (a : A) : Go A := λ w, (Returned a, w).

Definition bind {A B} (c : Go A) (k : A → Go B) : Go B :=
  λ w, match c w with
       | (Returned a, w') => k a w'
       | (Panicked msg, w') => (Panicked msg, w')
       end.

Definition panic {A} (msg : string) : Go A := λ w, (Panicked msg, w).

Local Notation "'let*' x ':=' c 'in' k" := (bind c (λ x, k))
  (at level 10, x name, c at level 100, k at level 200).

(** The type assertion of [raw] to a pointer to a [PodSecurityPolicy], in the
    one-result form, which panics. *)
Definition assertPolicy (raw : ptr) : Go ptr :=
  λ w, match heap w !! raw with
       | Some (ObjPolicy _) => (Returned raw, w)
       | _ => (Panicked "interface conversion: not *v1beta1.PodSecurityPolicy", w)
       end.

(** The same for a pointer to a [ClusterRole]. *)
Definition assertClusterRole (raw : ptr) : Go ptr :=
  λ w, match heap w !! raw with
       | Some (ObjClusterRole _) => (Returned raw, w)
       | _ => (Panicked "interface conversion: not *v1.ClusterRole", w)
       end.

Definition loadPolicy (p : ptr) : Go PodSecurityPolicy :=
  λ w, match heap w !! p with
       | Some (ObjPolicy v) => (Returned v, w)
       | _ => (Panicked "invalid memory address or nil pointer dereference", w)
       end.

Definition loadClusterRole (p : ptr) : Go ClusterRole :=
  λ w, match heap w !! p with
       | Some (ObjClusterRole v) => (Returned v, w)
       | _ => (Panicked "invalid memory address or nil pointer dereference", w)
       end.

Definition storePolicy (p : ptr) (v : PodSecurityPolicy) : Go unit :=
  λ w, (Returned tt,
        {| heap := <[p := ObjPolicy v]> (heap w); store := store w; calls := calls w |}).

(** [policy.DeepCopy()]: a new object with the same contents, its annotation
    map included; nothing is shared with the original. *)
Definition DeepCopy (p : ptr) : Go ptr :=
  let* v := loadPolicy p in
  λ w, (Returned (length (heap w)),
        {| heap := heap w ++ [ObjPolicy v]; store := store w; calls := calls w |}).

(** [p.Spec = spec]. *)
Definition setSpec (p : ptr) (spec : PodSecurityPolicySpec) : Go unit :=
  let* v := loadPolicy p in
  storePolicy p {| policyMeta := policyMeta v; policySpec := spec |}.

(** [p.Annotations[k] = x]. *)
Definition setAnnotation (p : ptr) (k x : string) : Go unit :=
  let* v := loadPolicy p in
  match mapAssign (Annotations (policyMeta v)) k x with
  | Some a =>
      storePolicy p {| policyMeta := setAnnotations (policyMeta v) (Some a);
                       policySpec := policySpec v |}
  | None => panic "assignment to entry in nil map"
  end.

Definition record (c : Call) (r : option error * Store) (w : World) : World :=
  {| heap := heap w; store := r.2; calls := calls w ++ [(c, r.1)] |}.

(** [l.policies.Update(p)]: the client serialises the object [p] points to. *)
Definition policiesUpdate (l : Lifecycle) (p : ptr) : Go (option error) :=
  let* v := loadPolicy p in
  λ w, let r := Update (policies l) v (store w) in
       (Returned r.1, record (CallUpdate v) r w).

(** [l.policies.Delete(name, &v1.DeleteOptions{})]. *)
Definition policiesDelete (l : Lifecycle) (name : string) : Go (option error) :=
  λ w, let r := Delete (policies l) name (store w) in
       (Returned r.1, record (CallDelete name) r w).

(** [l.clusterRoles.DeleteNamespaced(namespace, name, &v1.DeleteOptions{})]. *)
Definition clusterRolesDeleteNamespaced (l : Lifecycle) (namespace name : string)
  : Go (option error) :=
  λ w, let r := DeleteNamespaced (clusterRoles l) namespace name (store w) in
       (Returned r.1, record (CallDeleteNamespaced namespace name) r w).

(** [indexer.ByIndex(index, key)] on the current heap. *)
Definition byIndex (i : Indexer) (index key : string) : Go (list ptr * option error) :=
  λ w, (Returned (ByIndex i (heap w) index key), w).

(** ** The index functions *)

Definition policyByPSPTParentAnnotation : IndexFunc :=
  λ h obj,
    match h !! obj with
    | Some (ObjPolicy policy) =>
        if decide (mapIndex (Annotations (policyMeta policy))
                     podSecurityPolicyTemplateParentAnnotation = "")
        then ([], None)
        else ([mapIndex (Annotations (policyMeta policy))
                 podSecurityPolicyTemplateParentAnnotation], None)
    | _ => ([], None)
    end.

Definition clusterRoleByPSPTName : IndexFunc :=
  λ h obj,
    match h !! obj with
    | Some (ObjClusterRole clusterRole) =>
        if decide (mapIndex (Annotations (roleMeta clusterRole))
                     podSecurityPolicyTemplateParentAnnotation = "")
        then ([], None)
        else ([mapIndex (Annotations (roleMeta clusterRole))
                 podSecurityPolicyTemplateParentAnnotation], None)
    | _ => ([], None)
    end.

(** ** The handlers *)

Definition Create (l : Lifecycle) (obj : PodSecurityPolicyTemplate)
  : Go (option PodSecurityPolicyTemplate * option error) :=
  ret (None, None).

(** The body of the loop of [Updated]; [Some e] is the early [return nil, e]. *)
Fixpoint updatePolicies (l : Lifecycle) (obj : PodSecurityPolicyTemplate)
    (rawPolicies : list ptr) : Go (option error) :=
  match rawPolicies with
  | [] => ret None
  | rawPolicy :: rest =>
      let* policy := assertPolicy rawPolicy in
      let* p := loadPolicy policy in
      if decide (mapIndex (Annotations (policyMeta p))
                   podSecurityPolicyTemplateVersionAnnotation
                 ≠ ResourceVersion (templateMeta obj))
      then
        let* newPolicy := DeepCopy policy in
        let* _ := setSpec newPolicy (templateSpec obj) in
        let* _ := setAnnotation newPolicy podSecurityPolicyTemplateVersionAnnotation
                    (ResourceVersion (templateMeta obj)) in
        let* err := policiesUpdate l newPolicy in
        match err with
        | Some e => ret (Some ("error updating psp: " +:+ e))
        | None => updatePolicies l obj rest
        end
      else updatePolicies l obj rest
  end.

Definition Updated (l : Lifecycle) (obj : PodSecurityPolicyTemplate)
  : Go (option PodSecurityPolicyTemplate * option error) :=
  let* found := byIndex (policyIndexer l) policyByPSPTParentAnnotationIndex
             (Name (templateMeta obj)) in
  match found.2 with
  | Some e => ret (None, Some ("error getting policies: " +:+ e))
  | None =>
      let* err := updatePolicies l obj found.1 in
      match err with
      | Some e => ret (None, Some e)
      | None => ret (Some obj, None)
      end
  end.

Fixpoint deletePolicies (l : Lifecycle) (rawPolicies : list ptr) : Go (option error) :=
  match rawPolicies with
  | [] => ret None
  | rawPolicy :: rest =>
      let* policy := assertPolicy rawPolicy in
      let* p := loadPolicy policy in
      let* err := policiesDelete l (Name (policyMeta p)) in
      match err with
      | Some e => ret (Some ("error deleting policy: " +:+ e))
      | None => deletePolicies l rest
      end
  end.

Fixpoint deleteClusterRoles (l : Lifecycle) (rawClusterRoles : list ptr)
  : Go (option error) :=
  match rawClusterRoles with
  | [] => ret None
  | rawClusterRole :: rest =>
      let* clusterRole := assertClusterRole rawClusterRole in
      let* r := loadClusterRole clusterRole in
      let* err := clusterRolesDeleteNamespaced l (Namespace (roleMeta r)) (Name (roleMeta r)) in
      match err with
      | Some e => ret (Some ("error deleting cluster role: " +:+ e))
      | None => deleteClusterRoles l rest
      end
  end.

Definition Remove (l : Lifecycle) (obj : PodSecurityPolicyTemplate)
  : Go (option PodSecurityPolicyTemplate * option error) :=
  let* found := byIndex (policyIndexer l) policyByPSPTParentAnnotationIndex
             (Name (templateMeta obj)) in
  match found.2 with
  | Some e => ret (None, Some ("error getting policies: " +:+ e))
  | None =>
      let* err := deletePolicies l found.1 in
      match err with
      | Some e => ret (None, Some e)
      | None =>
          let* roles := byIndex (clusterRoleIndexer l) clusterRoleByPSPTNameIndex
                     (Name (templateMeta obj)) in
          match roles.2 with
          | Some e => ret (None, Some ("error getting cluster roles: " +:+ e))
          | None =>
              let* err := deleteClusterRoles l roles.1 in
              match err with
              | Some e => ret (None, Some e)
              | None => ret (Some obj, None)
              end
          end
      end
  end.

(** ** The informer store and the wiring of [RegisterTemplate] *)

(** A shared informer as the controller sees it: the objects of its store in
    the order a lookup lists them, and the index functions registered on it.
    [AddIndexers] registers index functions by name; [RegisterTemplate] drops
    the error client-go may return from it, so what is modelled is the
    registration having taken effect.  [GetIndexer] answers [ByIndex] as
    client-go's thread-safe store does: an error for an index that was never
    registered, otherwise the stored objects for which the index function
    lists the key. *)
Record Informer := mkInformer {
  informerStore : list ptr;
  informerIndexers : gmap string IndexFunc
}.

Definition AddIndexers (new : gmap string IndexFunc) (i : Informer) : Informer :=
  {| informerStore := informerStore i;
     informerIndexers := new ∪ informerIndexers i |}.

Definition GetIndexer (i : Informer) : Indexer :=
  {| ByIndex h index key :=
       match informerIndexers i !! index with
       | Some indexFunc =>
           (filter (λ o, key ∈ (indexFunc h o).1) (informerStore i), None)
       | None => ([], Some ("Index with name " +:+ index +:+ " does not exist"))
       end |}.

(** The part of [config.UserContext] that [RegisterTemplate] uses. *)
Record UserContext := mkUserContext {
  PodSecurityPolicies : PodSecurityPolicyInterface;
  PodSecurityPoliciesInformer : Informer;
  ClusterRoles : ClusterRoleInterface;
  ClusterRolesInformer : Informer
}.

(** [RegisterTemplate] up to the construction of the [Lifecycle]; the
    subscription of the handlers to the template's change stream is left to
    the caller of [Create], [Updated] and [Remove]. *)
Definition RegisterTemplate (context : UserContext) : Lifecycle :=
  let policyInformer :=
    AddIndexers {[ policyByPSPTParentAnnotationIndex := policyByPSPTParentAnnotation ]}
      (PodSecurityPoliciesInformer context) in
  let clusterRoleInformer :=
    AddIndexers {[ clusterRoleByPSPTNameIndex := clusterRoleByPSPTName ]}
      (ClusterRolesInformer context) in
  {| policies := PodSecurityPolicies context;
     clusterRoles := ClusterRoles context;
     policyIndexer := GetIndexer policyInformer;
     clusterRoleIndexer := GetIndexer clusterRoleInformer |}.

(** The informer hearing of an accepted write.  The object the server now
    holds is decoded into a new cell, which takes the place, in the informer's
    store, of the policy with the same namespace and name, or is added when
    there is none.  (The server also stamps the stored policy with a resource
    version of its own, which the handlers never read.) *)
Definition holdsPolicy (h : list Object) (v : PodSecurityPolicy) (a : ptr) : bool :=
  match h !! a with
  | Some (ObjPolicy p) => bool_decide (sameObject (policyMeta p) (policyMeta v))
  | _ => false
  end.

Definition onUpdate (v : PodSecurityPolicy) (hi : list Object * Informer)
  : list Object * Informer :=
  let h := hi.1 in
  let i := hi.2 in
  (h ++ [ObjPolicy v],
   {| informerStore :=
        if existsb (holdsPolicy h v) (informerStore i)
        then (λ a, if holdsPolicy h v a then length h else a) <$> informerStore i
        else informerStore i ++ [length h];
      informerIndexers := informerIndexers i |}).

(** The informer hearing of the accepted writes of a log, in order. *)
Fixpoint deliver (evs : list Event) (hi : list Object * Informer)
  : list Object * Informer :=
  match evs with
  | [] => hi
  | (CallUpdate v, None) :: rest => deliver rest (onUpdate v hi)
  | _ :: rest => deliver rest hi
  end.

End Model.

Abbreviation Event := (Call * option error)%type.

(** ** Vocabulary of the statements *)

Section Vocabulary.
Context `{Package, Server}.

(** The policy, or the cluster role, a pointer denotes in a heap. *)
Definition policyAt (h : list Object) (a : ptr) : option PodSecurityPolicy :=
  match h !! a with
  | Some (ObjPolicy p) => Some p
  | _ => None
  end.

Definition clusterRoleAt (h : list Object) (a : ptr) : option ClusterRole :=
  match h !! a with
  | Some (ObjClusterRole r) => Some r
  | _ => None
  end.

Definition parentOf (m : ObjectMeta) : string :=
  mapIndex (Annotations m) podSecurityPolicyTemplateParentAnnotation.

Definition sourceVersion (p : PodSecurityPolicy) : string :=
  mapIndex (Annotations (policyMeta p)) podSecurityPolicyTemplateVersionAnnotation.

(** The guard of [Updated]. *)
Definition stale (obj : PodSecurityPolicyTemplate) (p : PodSecurityPolicy) : Prop :=
  sourceVersion p ≠ ResourceVersion (templateMeta obj).

#[global] Instance stale_dec obj p : Decision (stale obj p).
Proof. unfold stale. apply _. Defined.

(** What [Updated] sends for a policy [p]: the copy of [p] after the two
    assignments. *)
Definition synced (obj : PodSecurityPolicyTemplate) (p : PodSecurityPolicy)
  : PodSecurityPolicy :=
  {| policyMeta :=
       setAnnotations (policyMeta p)
         (mapAssign (Annotations (policyMeta p))
            podSecurityPolicyTemplateVersionAnnotation
            (ResourceVersion (templateMeta obj)));
     policySpec := templateSpec obj |}.

(** One call on the API server, through the clients of [l]. *)
Definition exec (l : Lifecycle) (c : Call) (s : Store) : option error * Store :=
  match c with
  | CallUpdate p => Update (policies l) p s
  | CallDelete name => Delete (policies l) name s
  | CallDeleteNamespaced namespace name =>
      DeleteNamespaced (clusterRoles l) namespace name s
  end.

(** The calls of a list issued one after the other, each on the state the
    previous one left, with their outcomes. *)
Fixpoint issue (l : Lifecycle) (cs : list Call) (s : Store) : list Event * Store :=
  match cs with
  | [] => ([], s)
  | c :: rest =>
      let r := exec l c s in
      let k := issue l rest r.2 in
      ((c, r.1) :: k.1, k.2)
  end.

Definition succeeded (evs : list Event) : Prop := Forall (λ ev, ev.2 = None) evs.

(** The events a handler added to the log. *)
Definition issued (w w' : World) : list Event := drop (length (calls w)) (calls w').

(** The writes [Updated] has to make for a lookup result, and the deletions
    [Remove] has to make. *)
Definition stalePolicies (obj : PodSecurityPolicyTemplate) (h : list Object)
    (raws : list ptr) : list PodSecurityPolicy :=
  filter (stale obj) (omap (policyAt h) raws).

Definition policyDeletions (h : list Object) (raws : list ptr) : list Call :=
  (λ p, CallDelete (Name (policyMeta p))) <$> omap (policyAt h) raws.

Definition clusterRoleDeletions (h : list Object) (raws : list ptr) : list Call :=
  (λ r, CallDeleteNamespaced (Namespace (roleMeta r)) (Name (roleMeta r)))
    <$> omap (clusterRoleAt h) raws.

(** The two lookups a handler makes for a template in a world. *)
Definition policyLookup (l : Lifecycle) (obj : PodSecurityPolicyTemplate) (w : World)
  : list ptr * option error :=
  ByIndex (policyIndexer l) (heap w) policyByPSPTParentAnnotationIndex
    (Name (templateMeta obj)).

Definition clusterRoleLookup (l : Lifecycle) (obj : PodSecurityPolicyTemplate)
    (w : World) : list ptr * option error :=
  ByIndex (clusterRoleIndexer l) (heap w) clusterRoleByPSPTNameIndex
    (Name (templateMeta obj)).

(** The message a handler returns when the call [c] fails with [e]. *)
Definition wrap (c : Call) (e : error) : string :=
  match c with
  | CallUpdate _ => "error updating psp: " +:+ e
  | CallDelete _ => "error deleting policy: " +:+ e
  | CallDeleteNamespaced _ _ => "error deleting cluster role: " +:+ e
  end.

(** How a loop over the planned calls [full] went: it issued an initial
    segment [cs] of them, each on the state the previous one left and none
    after a failed one; it completed exactly when it issued them all with
    success, and returned the wrapped error of the last call otherwise. *)
Definition ran (l : Lifecycle) (full : list Call) (w : World)
    (r : Outcome (option error)) (w' : World) : Prop :=
  ∃ cs, cs `prefix_of` full ∧
    calls w' = calls w ++ (issue l cs (store w)).1 ∧
    store w' = (issue l cs (store w)).2 ∧
    match r with
    | Returned None => cs = full ∧ succeeded (issue l cs (store w)).1
    | Returned (Some m) =>
        ∃ pre c e, (issue l cs (store w)).1 = pre ++ [(c, Some e)] ∧
                   succeeded pre ∧ m = wrap c e
    | Panicked _ => succeeded (issue l cs (store w)).1
    end.

(** A looked-up pointer [Updated] can work on: it denotes a policy, whose
    annotation map is not nil if it has to be written. *)
Definition writable (obj : PodSecurityPolicyTemplate) (h : list Object) (a : ptr)
  : Prop :=
  ∃ p, policyAt h a = Some p ∧ (stale obj p → is_Some (Annotations (policyMeta p))).

(** The calls [Updated] has to make for a lookup result. *)
Definition policyUpdates (obj : PodSecurityPolicyTemplate) (h : list Object)
    (raws : list ptr) : list Call :=
  (λ p, CallUpdate (synced obj p)) <$> stalePolicies obj h raws.

(** What a handler returns after its last loop. *)
Definition finish (obj : PodSecurityPolicyTemplate) (r : Outcome (option error))
  : Outcome (option PodSecurityPolicyTemplate * option error) :=
  match r with
  | Returned None => Returned (Some obj, None)
  | Returned (Some m) => Returned (None, Some m)
  | Panicked msg => Panicked msg
  end.

(** The policy the server holds under the name [n], seen through [get], is
    in sync with the template. *)
Definition inSync (obj : PodSecurityPolicyTemplate)
    (get : Store → string → option PodSecurityPolicy) (s : Store) (n : string)
  : Prop :=
  ∃ q, get s n = Some q ∧ policySpec q = templateSpec obj ∧
       sourceVersion q = ResourceVersion (templateMeta obj).

(** The world after the write of [v] has been sent from a fresh copy. *)
Definition afterUpdate (v : PodSecurityPolicy) (r : option error * Store)
    (w : World) : World :=
  {| heap := heap w ++ [ObjPolicy v]; store := r.2;
     calls := calls w ++ [(CallUpdate v, r.1)] |}.

End Vocabulary.

(** ** A small cluster to run the handlers on

    A fake API server in the manner of client-go's fake clientset: objects
    are kept by name, and updating or deleting an object that is not there is
    refused with a not-found error. *)

Module Fixture.

Record Spec := mkSpec { allowPrivileged : bool }.

Definition package : Package :=
  {| PodSecurityPolicySpec := Spec;
     podSecurityPolicyTemplateParentAnnotation :=
       "serviceaccount.cluster.cattle.io/pod-security";
     podSecurityPolicyTemplateVersionAnnotation :=
       "serviceaccount.cluster.cattle.io/pod-security-version" |}.

Record Apiserver := mkApiserver {
  serverPolicies : gmap string (@PodSecurityPolicy package);
  serverClusterRoles : gmap (string * string) ClusterRole
}.

Definition server : Server := {| Store := Apiserver |}.

Definition fakeUpdate (p : @PodSecurityPolicy package) (s : Apiserver)
  : option error * Apiserver :=
  match serverPolicies s !! Name (policyMeta p) with
  | Some _ =>
      (None, {| serverPolicies := <[Name (policyMeta p) := p]> (serverPolicies s);
                serverClusterRoles := serverClusterRoles s |})
  | None => (Some ("not found: " +:+ Name (policyMeta p)), s)
  end.

Definition fakeDelete (name : string) (s : Apiserver) : option error * Apiserver :=
  match serverPolicies s !! name with
  | Some _ =>
      (None, {| serverPolicies := delete name (serverPolicies s);
                serverClusterRoles := serverClusterRoles s |})
  | None => (Some ("not found: " +:+ name), s)
  end.

Definition fakeDeleteNamespaced (namespace name : string) (s : Apiserver)
  : option error * Apiserver :=
  match serverClusterRoles s !! (namespace, name) with
  | Some _ =>
      (None, {| serverPolicies := serverPolicies s;
                serverClusterRoles := delete (namespace, name) (serverClusterRoles s) |})
  | None => (Some ("not found: " +:+ name), s)
  end.

Definition fakePolicies : @PodSecurityPolicyInterface package server :=
  @mkPodSecurityPolicyInterface package server fakeUpdate fakeDelete.

Definition fakeClusterRoles : @ClusterRoleInterface server :=
  @mkClusterRoleInterface server fakeDeleteNamespaced.

Definition meta (name version : string) (annotations : list (string * string))
  : ObjectMeta :=
  {| Name := name; Namespace := ""; ResourceVersion := version;
     Annotations := Some (list_to_map annotations) |}.

Definition parentKey : string := @podSecurityPolicyTemplateParentAnnotation package.
Definition versionKey : string := @podSecurityPolicyTemplateVersionAnnotation package.

(** Template [t1] at version 5, and what refers to it: [p1], last synced from
    version 4; [p2], already synced from version 5; the cluster role [r1].
    [p3] belongs to another template and [p4] to none. *)
Definition t1 : @PodSecurityPolicyTemplate package :=
  @mkPodSecurityPolicyTemplate package (meta "t1" "5" []) (mkSpec false).

Definition p1 : @PodSecurityPolicy package :=
  @mkPodSecurityPolicy package
    (meta "p1" "11" [(parentKey, "t1"); (versionKey, "4")]) (mkSpec true).
Definition p2 : @PodSecurityPolicy package :=
  @mkPodSecurityPolicy package
    (meta "p2" "12" [(parentKey, "t1"); (versionKey, "5")]) (mkSpec false).
Definition p3 : @PodSecurityPolicy package :=
  @mkPodSecurityPolicy package
    (meta "p3" "13" [(parentKey, "t2"); (versionKey, "1")]) (mkSpec true).
Definition p4 : @PodSecurityPolicy package :=
  @mkPodSecurityPolicy package
    {| Name := "p4"; Namespace := ""; ResourceVersion := "14"; Annotations := None |}
    (mkSpec true).
Definition r1 : ClusterRole :=
  {| roleMeta := meta "r1" "21" [(parentKey, "t1")] |}.

Definition objects : list (@Object package) :=
  [ObjPolicy p1; ObjPolicy p2; ObjPolicy p3; ObjPolicy p4; ObjClusterRole r1].

Definition context : @UserContext package server :=
  @mkUserContext package server
    fakePolicies (@mkInformer package [0; 1; 2; 3] ∅)
    fakeClusterRoles (@mkInformer package [4] ∅).

Definition lifecycle : @Lifecycle package server := RegisterTemplate context.

Definition apiserver (ps : list (@PodSecurityPolicy package)) (rs : list ClusterRole)
  : Apiserver :=
  {| serverPolicies := list_to_map ((λ p, (Name (policyMeta p), p)) <$> ps);
     serverClusterRoles :=
       list_to_map ((λ r, ((Namespace (roleMeta r), Name (roleMeta r)), r)) <$> rs) |}.

(** The cluster with everything in place. *)
Definition world : @World package server :=
  @mkWorld package server objects (apiserver [p1; p2; p3; p4] [r1]) [].

(** The same cluster after [p1] was deleted behind the informer's back. *)
Definition worldWithoutP1 : @World package server :=
  @mkWorld package server objects (apiserver [p2; p3; p4] [r1]) [].

(** The same cluster after [p2] was deleted behind the informer's back. *)
Definition worldWithoutP2 : @World package server :=
  @mkWorld package server objects (apiserver [p1; p3; p4] [r1]) [].



(** A lifecycle whose policy indexer is a stub that lists the given objects
    under every key, as a test double for [cache.Indexer] would. *)
Definition lifecycleListing (raws : list ptr) : @Lifecycle package server :=
  @Build_Lifecycle package server
    fakePolicies fakeClusterRoles
    (@Build_Indexer package (λ _ _ _, (raws, None)))
    (@Build_Indexer package (λ _ _ _, ([], None))).

(** [t1] as another observer holds it: same name, version and spec, other
    namespace and annotations. *)
Definition t1Relabelled : @PodSecurityPolicyTemplate package :=
  @mkPodSecurityPolicyTemplate package
    {| Name := "t1"; Namespace := "local"; ResourceVersion := "5";
       Annotations := Some {[ "note" := "seen later" ]} |}
    (mkSpec false).

(** A template of the same name at another version and with another spec. *)
Definition t1Older : @PodSecurityPolicyTemplate package :=
  @mkPodSecurityPolicyTemplate package (meta "t1" "3" []) (mkSpec true).

End Fixture.

(** * Properties *)

(** ** One iteration of each loop *)

Section Steps.
Context `{Package, Server}.
Implicit Types (l : Lifecycle) (obj : PodSecurityPolicyTemplate).
Implicit Types (w : World) (h : list Object) (raws : list ptr).

Lemma lookup_snoc h (x : Object) : (h ++ [x]) !! length h = Some x.
Proof. by rewrite list_lookup_middle. Qed.

Lemma insert_snoc h (x y : Object) : <[length h := y]> (h ++ [x]) = h ++ [y].
Proof.
  rewrite insert_app_r_alt by lia. by rewrite Nat.sub_diag.
Qed.

Lemma updatePolicies_step l obj raw rest w :
  updatePolicies l obj (raw :: rest) w =
  match policyAt (heap w) raw with
  | None => (Panicked "interface conversion: not *v1beta1.PodSecurityPolicy", w)
  | Some p =>
      if decide (stale obj p) then
        match Annotations (policyMeta p) with
        | None =>
            (Panicked "assignment to entry in nil map",
             {| heap := heap w ++ [ObjPolicy {| policyMeta := policyMeta p;
                                                policySpec := templateSpec obj |}];
                store := store w; calls := calls w |})
        | Some _ =>
            let r := Update (policies l) (synced obj p) (store w) in
            match r.1 with
            | Some e =>
                (Returned (Some ("error updating psp: " +:+ e)),
                 afterUpdate (synced obj p) r w)
            | None => updatePolicies l obj rest (afterUpdate (synced obj p) r w)
            end
        end
      else updatePolicies l obj rest w
  end.
Proof.
  cbn [updatePolicies]. unfold bind at 1, assertPolicy, policyAt.
  destruct (heap w !! raw) as [[p|r|k]|] eqn:Hraw; try reflexivity.
  unfold bind at 1, loadPolicy. rewrite Hraw.
  unfold stale_dec, stale, sourceVersion.
  destruct (decide _) as [Hstale|Hfresh]; [|reflexivity].
  unfold DeepCopy, setSpec, setAnnotation, policiesUpdate, storePolicy, loadPolicy, bind.
  rewrite Hraw. cbn [heap store calls].
  rewrite lookup_snoc. cbn [heap store calls policyMeta policySpec].
  rewrite insert_snoc, lookup_snoc. cbn [heap store calls policyMeta policySpec].
  unfold synced, afterUpdate, record, ret, panic.
  destruct (Annotations (policyMeta p)) as [a|] eqn:Ha; cbn [mapAssign].
  - cbn [heap store calls]. rewrite insert_snoc, lookup_snoc.
    cbn [heap store calls fst snd].
    destruct (Update _ _ _) as [[e|] s']; reflexivity.
  - reflexivity.
Qed.

End Steps.

(** ** Sequences of calls *)

Section Calls.
Context `{Package, Server}.
Implicit Types (l : Lifecycle) (w : World) (cs : list Call) (evs : list Event).

Lemma issue_calls l cs s : (issue l cs s).1.*1 = cs.
Proof.
  revert s. induction cs as [|c cs IH]; intros s; [done|].
  cbn. by rewrite IH.
Qed.

Lemma issue_length l cs s : length (issue l cs s).1 = length cs.
Proof. by rewrite <- (issue_calls l cs s) at 2; rewrite length_fmap. Qed.

Lemma issue_app l cs1 cs2 s :
  issue l (cs1 ++ cs2) s =
  ((issue l cs1 s).1 ++ (issue l cs2 (issue l cs1 s).2).1,
   (issue l cs2 (issue l cs1 s).2).2).
Proof.
  revert s. induction cs1 as [|c cs1 IH]; intros s; cbn.
  - by destruct (issue l cs2 s).
  - by rewrite IH.
Qed.

Lemma succeeded_app evs1 evs2 :
  succeeded (evs1 ++ evs2) ↔ succeeded evs1 ∧ succeeded evs2.
Proof. apply Forall_app. Qed.

(** A failed event of a run is its last one. *)
Lemma failure_is_last evs pre c e i c' e' :
  evs = pre ++ [(c, Some e)] → succeeded pre →
  evs !! i = Some (c', Some e') →
  S i = length evs ∧ c' = c ∧ e' = e.
Proof.
  intros -> Hpre Hi.
  destruct (decide (i < length pre)) as [Hlt|Hge].
  - rewrite lookup_app_l in Hi by done.
    eapply Forall_lookup_1 in Hpre; [|done]. done.
  - rewrite lookup_app_r in Hi by lia.
    destruct (i - length pre) as [|n] eqn:Hn; [|done].
    cbn in Hi. injection Hi as <- <-.
    rewrite length_app. cbn. split; [lia|done].
Qed.

Lemma succeeded_no_failure evs i c e :
  succeeded evs → evs !! i = Some (c, Some e) → False.
Proof. intros Hs Hi. eapply Forall_lookup_1 in Hs; [|done]. done. Qed.

Lemma succeeded_fmap_None cs : succeeded ((λ c, (c, None)) <$> cs).
Proof. apply Forall_fmap, Forall_true. done. Qed.

(** A successful run is the list of its calls, each with no error. *)
Lemma succeeded_events evs : succeeded evs → evs = (λ c, (c, None)) <$> evs.*1.
Proof.
  induction 1 as [|[c o] evs Ho _ IH]; [done|].
  cbn in *. subst o. by rewrite <- IH.
Qed.

Lemma ran_nil l w : ran l [] w (Returned None) w.
Proof.
  exists []. cbn. rewrite app_nil_r. split_and!; try done. constructor.
Qed.

Lemma ran_panic l full w msg w' :
  calls w' = calls w → store w' = store w → ran l full w (Panicked msg) w'.
Proof.
  intros Hc Hs. exists []. cbn. rewrite app_nil_r.
  split_and!; try done; [apply prefix_nil | constructor].
Qed.

Lemma ran_fail l c full w e w' :
  (exec l c (store w)).1 = Some e →
  calls w' = calls w ++ [(c, Some e)] →
  store w' = (exec l c (store w)).2 →
  ran l (c :: full) w (Returned (Some (wrap c e))) w'.
Proof.
  intros He Hc Hs. exists [c]. cbn. rewrite He.
  split_and!; try done.
  - apply prefix_cons, prefix_nil.
  - exists [], c, e. split_and!; try done. constructor.
Qed.

Lemma ran_cons l c full w w1 r w' :
  (exec l c (store w)).1 = None →
  calls w1 = calls w ++ [(c, None)] →
  store w1 = (exec l c (store w)).2 →
  ran l full w1 r w' →
  ran l (c :: full) w r w'.
Proof.
  intros Hc Hcalls Hstore (cs & Hpre & Hc' & Hs' & Hr).
  exists (c :: cs). cbn. rewrite Hc. rewrite <- Hstore.
  split_and!.
  - by apply prefix_cons.
  - rewrite Hc', Hcalls, <- app_assoc. done.
  - done.
  - destruct r as [[m|]|msg].
    + destruct Hr as (pre & c0 & e & Hev & Hpre' & ->).
      exists ((c, None) :: pre), c0, e. rewrite Hev.
      split_and!; try done. by constructor.
    + destruct Hr as [-> Hr]. split; [done | by constructor].
    + by constructor.
Qed.

End Calls.

(** ** The three loops *)

Section Loops.
Context `{Package, Server}.
Implicit Types (l : Lifecycle) (obj : PodSecurityPolicyTemplate).
Implicit Types (w : World) (h : list Object) (raws : list ptr).

Lemma deletePolicies_step l raw rest w :
  deletePolicies l (raw :: rest) w =
  match policyAt (heap w) raw with
  | None => (Panicked "interface conversion: not *v1beta1.PodSecurityPolicy", w)
  | Some p =>
      let c := CallDelete (Name (policyMeta p)) in
      let r := exec l c (store w) in
      match r.1 with
      | Some e => (Returned (Some ("error deleting policy: " +:+ e)), record c r w)
      | None => deletePolicies l rest (record c r w)
      end
  end.
Proof.
  cbn [deletePolicies]. unfold bind at 1, assertPolicy, policyAt.
  destruct (heap w !! raw) as [[p|r|k]|] eqn:Hraw; try reflexivity.
  unfold bind, loadPolicy, policiesDelete, ret. rewrite Hraw. cbn.
  destruct (Delete _ _ _) as [[e|] s']; reflexivity.
Qed.

Lemma deleteClusterRoles_step l raw rest w :
  deleteClusterRoles l (raw :: rest) w =
  match clusterRoleAt (heap w) raw with
  | None => (Panicked "interface conversion: not *v1.ClusterRole", w)
  | Some r0 =>
      let c := CallDeleteNamespaced (Namespace (roleMeta r0)) (Name (roleMeta r0)) in
      let r := exec l c (store w) in
      match r.1 with
      | Some e => (Returned (Some ("error deleting cluster role: " +:+ e)), record c r w)
      | None => deleteClusterRoles l rest (record c r w)
      end
  end.
Proof.
  cbn [deleteClusterRoles]. unfold bind at 1, assertClusterRole, clusterRoleAt.
  destruct (heap w !! raw) as [[p|r|k]|] eqn:Hraw; try reflexivity.
  unfold bind, loadClusterRole, clusterRolesDeleteNamespaced, ret. rewrite Hraw. cbn.
  destruct (DeleteNamespaced _ _ _ _) as [[e|] s']; reflexivity.
Qed.

Lemma deletePolicies_heap l raws w : heap (deletePolicies l raws w).2 = heap w.
Proof.
  revert w. induction raws as [|raw rest IH]; intros w; [done|].
  rewrite deletePolicies_step.
  destruct (policyAt (heap w) raw) as [p|]; [|done]. cbn zeta.
  destruct (exec _ _ _).1; [done|]. by rewrite IH.
Qed.

Lemma deleteClusterRoles_heap l raws w : heap (deleteClusterRoles l raws w).2 = heap w.
Proof.
  revert w. induction raws as [|raw rest IH]; intros w; [done|].
  rewrite deleteClusterRoles_step.
  destruct (clusterRoleAt (heap w) raw) as [p|]; [|done]. cbn zeta.
  destruct (exec _ _ _).1; [done|]. by rewrite IH.
Qed.

Lemma deletePolicies_ran l h raws w r w' :
  heap w = h →
  deletePolicies l raws w = (r, w') →
  ran l (policyDeletions h raws) w r w'.
Proof.
  revert w r w'. induction raws as [|raw rest IH]; intros w r w' Hh Hrun.
  - injection Hrun as <- <-. apply ran_nil.
  - rewrite deletePolicies_step in Hrun. unfold policyDeletions. cbn [omap list_omap].
    rewrite <- Hh. destruct (policyAt (heap w) raw) as [p|].
    + cbn zeta in Hrun. cbn [fmap list_fmap].
      destruct (exec l _ (store w)).1 as [e|] eqn:He.
      * injection Hrun as <- <-.
        apply (ran_fail l (CallDelete (Name (policyMeta p)))); [done| |done].
        unfold record, exec in *. cbn [calls]. by rewrite He.
      * eapply ran_cons; [done | | | rewrite Hh; apply IH; [|done]]; try done.
        unfold record, exec in *. cbn [calls]. by rewrite He.
    + injection Hrun as <- <-. by apply ran_panic.
Qed.

Lemma deleteClusterRoles_ran l h raws w r w' :
  heap w = h →
  deleteClusterRoles l raws w = (r, w') →
  ran l (clusterRoleDeletions h raws) w r w'.
Proof.
  revert w r w'. induction raws as [|raw rest IH]; intros w r w' Hh Hrun.
  - injection Hrun as <- <-. apply ran_nil.
  - rewrite deleteClusterRoles_step in Hrun.
    unfold clusterRoleDeletions. cbn [omap list_omap].
    rewrite <- Hh. destruct (clusterRoleAt (heap w) raw) as [r0|].
    + cbn zeta in Hrun. cbn [fmap list_fmap].
      destruct (exec l _ (store w)).1 as [e|] eqn:He.
      * injection Hrun as <- <-.
        apply (ran_fail l (CallDeleteNamespaced (Namespace (roleMeta r0))
                             (Name (roleMeta r0)))); [done| |done].
        unfold record, exec in *. cbn [calls]. by rewrite He.
      * eapply ran_cons; [done | | | rewrite Hh; apply IH; [|done]]; try done.
        unfold record, exec in *. cbn [calls]. by rewrite He.
    + injection Hrun as <- <-. by apply ran_panic.
Qed.

Lemma issued_app w w' evs : calls w' = calls w ++ evs → issued w w' = evs.
Proof. intros Hc. unfold issued. rewrite Hc. apply drop_app_length. Qed.

Lemma sourceVersion_synced obj p a :
  Annotations (policyMeta p) = Some a →
  sourceVersion (synced obj p) = ResourceVersion (templateMeta obj).
Proof.
  intros Ha. unfold sourceVersion, synced. cbn. rewrite Ha. cbn.
  by rewrite lookup_insert_eq.
Qed.

Lemma synced_fresh obj p a :
  Annotations (policyMeta p) = Some a → ¬ stale obj (synced obj p).
Proof. intros Ha Hs. apply Hs. by eapply sourceVersion_synced. Qed.

Lemma policyAt_grown_old h0 h1 a p :
  policyAt h0 a = Some p → policyAt (h0 ++ h1) a = Some p.
Proof.
  unfold policyAt. destruct (h0 !! a) as [o|] eqn:Ha; [|done].
  by rewrite (lookup_app_l_Some _ _ _ _ Ha).
Qed.

Lemma policyAt_grown_new h0 (vs : list PodSecurityPolicy) a p :
  policyAt h0 a = None →
  policyAt (h0 ++ (ObjPolicy <$> vs)) a = Some p →
  p ∈ vs.
Proof.
  unfold policyAt. destruct (h0 !! a) as [o|] eqn:Ha.
  - rewrite (lookup_app_l_Some _ _ _ _ Ha). by destruct o.
  - intros _. apply lookup_ge_None in Ha. rewrite lookup_app_r by done.
    rewrite list_lookup_fmap.
    destruct (vs !! (a - length h0)) as [v|] eqn:Hv; [|done]. cbn.
    intros [= <-]. by eapply list_elem_of_lookup_2.
Qed.

Lemma stalePolicies_cons obj h raw rest :
  stalePolicies obj h (raw :: rest) =
  match policyAt h raw with
  | Some p =>
      if decide (stale obj p) then p :: stalePolicies obj h rest
      else stalePolicies obj h rest
  | None => stalePolicies obj h rest
  end.
Proof.
  unfold stalePolicies. cbn [omap list_omap].
  destruct (policyAt h raw) as [p|]; [|done].
  rewrite filter_cons. by destruct (decide (stale obj p)).
Qed.

Lemma updatePolicies_ran l obj h0 vs raws w r w' :
  heap w = h0 ++ (ObjPolicy <$> vs) →
  Forall (λ v, ¬ stale obj v) vs →
  updatePolicies l obj raws w = (r, w') →
  ran l ((λ p, CallUpdate (synced obj p)) <$> stalePolicies obj h0 raws) w r w'.
Proof.
  revert vs w r w'. induction raws as [|raw rest IH]; intros vs w r w' Hh Hvs Hrun.
  - injection Hrun as <- <-. apply ran_nil.
  - rewrite updatePolicies_step in Hrun. rewrite stalePolicies_cons.
    destruct (policyAt (heap w) raw) as [p|] eqn:Hp; cycle 1.
    { injection Hrun as <- <-. by apply ran_panic. }
    assert (Hcase : policyAt h0 raw = Some p ∨
                    policyAt h0 raw = None ∧ ¬ stale obj p).
    { destruct (policyAt h0 raw) as [p0|] eqn:Hp0.
      - left. rewrite Hh in Hp.
        rewrite (policyAt_grown_old _ _ _ _ Hp0) in Hp. done.
      - right. split; [done|]. rewrite Hh in Hp.
        eapply Forall_forall in Hvs; [done|]. by eapply policyAt_grown_new. }
    destruct Hcase as [-> | [-> Hfresh]]; cycle 1.
    { destruct (decide (stale obj p)); [done|]. by eapply IH. }
    destruct (decide (stale obj p)) as [Hstale|Hfresh]; [|by eapply IH].
    destruct (Annotations (policyMeta p)) as [a|] eqn:Ha; cycle 1.
    { injection Hrun as <- <-. by apply ran_panic. }
    cbn zeta in Hrun. cbn [fmap list_fmap].
    destruct (Update (policies l) (synced obj p) (store w)).1 as [e|] eqn:He.
    + injection Hrun as <- <-.
      apply (ran_fail l (CallUpdate (synced obj p))); [done| |done].
      unfold afterUpdate. cbn [calls]. by rewrite He.
    + eapply ran_cons; [done | | | eapply (IH (vs ++ [synced obj p])); [| |done]].
      * unfold afterUpdate. cbn [calls]. by rewrite He.
      * done.
      * unfold afterUpdate. cbn [heap]. rewrite Hh, fmap_app, app_assoc. done.
      * apply Forall_app. split; [done|]. constructor; [|constructor].
        by eapply synced_fresh.
Qed.

(** The heap only grows, by the copies made; what is sent is a copy. *)
Lemma updatePolicies_heap l obj raws w r w' :
  updatePolicies l obj raws w = (r, w') →
  ∃ vs, heap w' = heap w ++ (ObjPolicy <$> vs) ∧
        ∀ v e, (CallUpdate v, e) ∈ issued w w' → v ∈ vs.
Proof.
  revert w r w'. induction raws as [|raw rest IH]; intros w r w' Hrun.
  - injection Hrun as <- <-. exists []. cbn. rewrite app_nil_r. split; [done|].
    unfold issued. rewrite drop_all. intros v e Hin. by apply elem_of_nil in Hin.
  - rewrite updatePolicies_step in Hrun.
    destruct (policyAt (heap w) raw) as [p|] eqn:Hp; cycle 1.
    { injection Hrun as <- <-. exists []. cbn. rewrite app_nil_r. split; [done|].
      unfold issued. rewrite drop_all. intros v e Hin. by apply elem_of_nil in Hin. }
    destruct (decide (stale obj p)) as [Hstale|Hfresh]; [|by eapply IH].
    destruct (Annotations (policyMeta p)) as [a|] eqn:Ha; cycle 1.
    { injection Hrun as <- <-. eexists [_]. cbn [heap calls fmap list_fmap].
      split; [done|]. unfold issued. cbn [calls]. rewrite drop_all.
      intros v e Hin. by apply elem_of_nil in Hin. }
    cbn zeta in Hrun.
    set (r1 := Update (policies l) (synced obj p) (store w)) in *.
    assert (Hfirst : calls (afterUpdate (synced obj p) r1 w) =
                     calls w ++ [(CallUpdate (synced obj p), r1.1)]) by done.
    destruct r1.1 as [e|] eqn:He.
    + injection Hrun as <- <-. exists [synced obj p]. split; [done|].
      rewrite (issued_app _ _ _ Hfirst). intros v e' Hin.
      apply list_elem_of_singleton in Hin. injection Hin as -> _.
      apply list_elem_of_singleton. done.
    + destruct (IH _ _ _ Hrun) as (vs & Hheap & Hsent).
      exists (synced obj p :: vs). split.
      * rewrite Hheap. unfold afterUpdate. cbn [heap].
        rewrite <- app_assoc. done.
      * intros v e Hin.
        assert (Hcalls : ∃ evs, calls w' = calls (afterUpdate (synced obj p) r1 w) ++ evs).
        { pose proof (updatePolicies_ran l obj (heap (afterUpdate (synced obj p) r1 w))
                        [] rest _ _ _ (eq_sym (app_nil_r _)) (Forall_nil_2 _) Hrun)
            as (cs & _ & Hc & _). eauto. }
        destruct Hcalls as [evs Hevs].
        rewrite (issued_app _ _ _ Hevs) in Hsent.
        rewrite Hfirst, <- app_assoc in Hevs.
        rewrite (issued_app _ _ _ Hevs) in Hin.
        apply elem_of_cons in Hin as [Hin|Hin].
        -- injection Hin as -> _. apply elem_of_cons. by left.
        -- apply elem_of_cons. right. by eapply Hsent.
Qed.

End Loops.

(** ** What a run of calls tells *)

Section Runs.
Context `{Package, Server}.
Implicit Types (l : Lifecycle) (obj : PodSecurityPolicyTemplate).
Implicit Types (w : World) (h : list Object) (raws : list ptr).

Lemma ran_issued l full w r w' :
  ran l full w r w' →
  (issued w w').*1 `prefix_of` full ∧
  issued w w' = (issue l (issued w w').*1 (store w)).1 ∧
  store w' = (issue l (issued w w').*1 (store w)).2.
Proof.
  intros (cs & Hpre & Hc & Hs & _).
  rewrite (issued_app _ _ _ Hc), issue_calls. done.
Qed.

Lemma ran_failure l full w r w' i c e :
  ran l full w r w' →
  issued w w' !! i = Some (c, Some e) →
  r = Returned (Some (wrap c e)) ∧ S i = length (issued w w').
Proof.
  intros (cs & Hpre & Hc & Hs & Hr) Hi.
  rewrite (issued_app _ _ _ Hc) in *.
  destruct r as [[m|]|msg].
  - destruct Hr as (pre & c0 & e0 & Hev & Hok & ->).
    destruct (failure_is_last _ _ _ _ _ _ _ Hev Hok Hi) as (? & -> & ->). done.
  - destruct Hr as [_ Hr]. by destruct (succeeded_no_failure _ _ _ _ Hr Hi).
  - by destruct (succeeded_no_failure _ _ _ _ Hr Hi).
Qed.

Lemma ran_completed l full w w' :
  ran l full w (Returned None) w' →
  issued w w' = (λ c, (c, None)) <$> full.
Proof.
  intros (cs & Hpre & Hc & Hs & -> & Hok).
  rewrite (issued_app _ _ _ Hc).
  rewrite (succeeded_events _ Hok) at 1. by rewrite issue_calls.
Qed.

Lemma ran_failed l full w m w' :
  ran l full w (Returned (Some m)) w' →
  ∃ c e, last (issued w w') = Some (c, Some e) ∧ m = wrap c e.
Proof.
  intros (cs & Hpre & Hc & Hs & pre & c & e & Hev & Hok & ->).
  rewrite (issued_app _ _ _ Hc), Hev. exists c, e. by rewrite last_snoc.
Qed.

Lemma ran_succeeded l full w r w' :
  ran l full w r w' → r ≠ Returned None → succeeded (issued w w') →
  ∃ msg, r = Panicked msg.
Proof.
  intros (cs & Hpre & Hc & Hs & Hr) Hne Hok.
  rewrite (issued_app _ _ _ Hc) in Hok.
  destruct r as [[m|]|msg]; [|done|by eexists].
  destruct Hr as (pre & c & e & Hev & _ & _). rewrite Hev in Hok.
  apply succeeded_app in Hok as [_ Hok]. by inversion Hok.
Qed.

(** The events of an initial segment of a plan start the events of the plan. *)
Lemma issue_prefix l cs full s :
  cs `prefix_of` full → (issue l cs s).1 `prefix_of` (issue l full s).1.
Proof.
  intros [rest ->]. rewrite issue_app. cbn. by eexists.
Qed.

Lemma succeeded_prefix (evs1 evs2 : list Event) :
  evs1 `prefix_of` evs2 → succeeded evs2 → succeeded evs1.
Proof. intros [rest ->] Hok. by apply succeeded_app in Hok as [? _]. Qed.

(** When the server accepts every planned call, a loop that does not panic
    completes. *)
Lemma ran_accepts l full w r w' :
  ran l full w r w' →
  succeeded (issue l full (store w)).1 →
  r = Returned None ∨ ∃ msg, r = Panicked msg.
Proof.
  intros Hran Hok.
  destruct r as [[m|]|msg]; [|by left|by right; eexists].
  right. eapply ran_succeeded; [done..|].
  destruct Hran as (cs & Hpre & Hc & _).
  rewrite (issued_app _ _ _ Hc).
  eapply succeeded_prefix; [|done]. by apply issue_prefix.
Qed.

(** Two loops in a row. *)
Lemma ran_then l full1 full2 w w1 r w' :
  ran l full1 w (Returned None) w1 →
  ran l full2 w1 r w' →
  ran l (full1 ++ full2) w r w'.
Proof.
  intros (cs1 & _ & Hc1 & Hs1 & -> & Hok1) (cs2 & Hpre2 & Hc2 & Hs2 & Hr).
  exists (full1 ++ cs2). rewrite issue_app. cbn [fst snd]. rewrite <- Hs1.
  split_and!.
  - by apply prefix_app.
  - by rewrite Hc2, Hc1, <- app_assoc.
  - done.
  - destruct r as [[m|]|msg].
    + destruct Hr as (pre & c & e & Hev & Hok & ->).
      exists ((issue l full1 (store w)).1 ++ pre), c, e. rewrite Hev, <- app_assoc.
      split_and!; try done. by apply succeeded_app.
    + destruct Hr as [-> Hok2]. split; [done|]. by apply succeeded_app.
    + by apply succeeded_app.
Qed.

Lemma ran_stopped l full1 full2 w r w' :
  ran l full1 w r w' → r ≠ Returned None →
  ran l (full1 ++ full2) w r w'.
Proof.
  intros (cs & Hpre & Hc & Hs & Hr) Hne. exists cs. split_and!; try done.
  - by apply prefix_app_r.
  - by destruct r as [[m|]|msg].
Qed.

End Runs.

(** ** The handlers as a whole *)

Section Handlers.
Context `{Package, Server}.
Implicit Types (l : Lifecycle) (obj : PodSecurityPolicyTemplate).
Implicit Types (w : World) (h : list Object) (raws : list ptr).

Lemma Updated_unfold l obj w :
  Updated l obj w =
  let found := ByIndex (policyIndexer l) (heap w) policyByPSPTParentAnnotationIndex
                 (Name (templateMeta obj)) in
  match found.2 with
  | Some e => (Returned (None, Some ("error getting policies: " +:+ e)), w)
  | None => ((finish obj (updatePolicies l obj found.1 w).1),
             (updatePolicies l obj found.1 w).2)
  end.
Proof.
  unfold Updated, bind, byIndex, ret. cbn zeta.
  destruct (ByIndex _ _ _ _).2; [done|].
  by destruct (updatePolicies _ _ _ _) as [[[m|]|msg] w'].
Qed.

Lemma Remove_unfold l obj w :
  Remove l obj w =
  let found := ByIndex (policyIndexer l) (heap w) policyByPSPTParentAnnotationIndex
                 (Name (templateMeta obj)) in
  match found.2 with
  | Some e => (Returned (None, Some ("error getting policies: " +:+ e)), w)
  | None =>
      let r1 := deletePolicies l found.1 w in
      match r1.1 with
      | Returned None =>
          let roles := ByIndex (clusterRoleIndexer l) (heap w) clusterRoleByPSPTNameIndex
                         (Name (templateMeta obj)) in
          match roles.2 with
          | Some e => (Returned (None, Some ("error getting cluster roles: " +:+ e)), r1.2)
          | None => (finish obj (deleteClusterRoles l roles.1 r1.2).1,
                     (deleteClusterRoles l roles.1 r1.2).2)
          end
      | _ => (finish obj r1.1, r1.2)
      end
  end.
Proof.
  unfold Remove, bind, byIndex, ret. cbn zeta.
  destruct (ByIndex (policyIndexer l) _ _ _).2; [done|].
  pose proof (deletePolicies_heap l (ByIndex (policyIndexer l) (heap w)
    policyByPSPTParentAnnotationIndex (Name (templateMeta obj))).1 w) as Hheap.
  destruct (deletePolicies _ _ _) as [[[m|]|msg] w1]; [done| |done].
  cbn [fst snd] in *. rewrite Hheap.
  destruct (ByIndex (clusterRoleIndexer l) _ _ _).2; [done|].
  by destruct (deleteClusterRoles _ _ _) as [[[m|]|msg] w'].
Qed.

Lemma Updated_ran l obj w raws r w' :
  ByIndex (policyIndexer l) (heap w) policyByPSPTParentAnnotationIndex
    (Name (templateMeta obj)) = (raws, None) →
  Updated l obj w = (r, w') →
  ∃ r0, ran l (policyUpdates obj (heap w) raws) w r0 w' ∧ r = finish obj r0.
Proof.
  intros Hfound Hrun. rewrite Updated_unfold, Hfound in Hrun. cbn in Hrun.
  injection Hrun as <- <-.
  exists (updatePolicies l obj raws w).1. split; [|done].
  eapply (updatePolicies_ran l obj (heap w) []); [by rewrite app_nil_r|done|].
  by destruct (updatePolicies _ _ _ _).
Qed.

(** [Remove] when both lookups answer: one run over the policy deletions
    followed by the cluster role deletions. *)
Lemma Remove_ran l obj w praws rraws r w' :
  ByIndex (policyIndexer l) (heap w) policyByPSPTParentAnnotationIndex
    (Name (templateMeta obj)) = (praws, None) →
  ByIndex (clusterRoleIndexer l) (heap w) clusterRoleByPSPTNameIndex
    (Name (templateMeta obj)) = (rraws, None) →
  Remove l obj w = (r, w') →
  ∃ r0, ran l (policyDeletions (heap w) praws ++ clusterRoleDeletions (heap w) rraws)
          w r0 w' ∧ r = finish obj r0.
Proof.
  intros Hp Hr Hrun. rewrite Remove_unfold, Hp in Hrun. cbn [fst snd] in Hrun.
  cbn zeta in Hrun. rewrite Hr in Hrun. cbn [fst snd] in Hrun.
  pose proof (deletePolicies_heap l praws w) as Hheap.
  destruct (deletePolicies l praws w) as [r1 w1] eqn:Hrun1.
  apply (deletePolicies_ran l (heap w)) in Hrun1; [|done].
  cbn [fst snd] in *.
  destruct r1 as [[m|]|msg].
  - injection Hrun as <- <-. exists (Returned (Some m)). split; [|done].
    by apply ran_stopped.
  - injection Hrun as <- <-.
    exists (deleteClusterRoles l rraws w1).1. split; [|done].
    eapply ran_then; [done|].
    apply (deleteClusterRoles_ran l (heap w)); [done|].
    by destruct (deleteClusterRoles _ _ _).
  - injection Hrun as <- <-. exists (Panicked msg). split; [|done].
    by apply ran_stopped.
Qed.

(** [Remove] when the cluster role lookup does not answer. *)
Lemma Remove_ran_policies l obj w praws e r w' :
  ByIndex (policyIndexer l) (heap w) policyByPSPTParentAnnotationIndex
    (Name (templateMeta obj)) = (praws, None) →
  (ByIndex (clusterRoleIndexer l) (heap w) clusterRoleByPSPTNameIndex
     (Name (templateMeta obj))).2 = Some e →
  Remove l obj w = (r, w') →
  ∃ r0, ran l (policyDeletions (heap w) praws) w r0 w' ∧
        r = match r0 with
            | Returned None =>
                Returned (None, Some ("error getting cluster roles: " +:+ e))
            | _ => finish obj r0
            end.
Proof.
  intros Hp Hr Hrun. rewrite Remove_unfold, Hp in Hrun. cbn [fst snd] in Hrun.
  cbn zeta in Hrun. rewrite Hr in Hrun.
  destruct (deletePolicies l praws w) as [r1 w1] eqn:Hrun1.
  apply (deletePolicies_ran l (heap w)) in Hrun1; [|done].
  cbn [fst snd] in *. exists r1.
  destruct r1 as [[m|]|msg]; injection Hrun as <- <-; done.
Qed.

End Handlers.

(** * The claims *)

(** ** The reverse index *)

Section Index.
Context `{Package, Server}.
Implicit Types (h : list Object) (a : ptr) (key : string).

(** An annotation reads as empty exactly when the map is nil, the key is
    missing, or the key holds the empty string. *)
Lemma parentOf_empty (m : ObjectMeta) :
  parentOf m = "" ↔
  Annotations m = None ∨
  ∃ ann, Annotations m = Some ann ∧
         (ann !! podSecurityPolicyTemplateParentAnnotation = None ∨
          ann !! podSecurityPolicyTemplateParentAnnotation = Some "").
Proof.
  unfold parentOf, mapIndex. destruct (Annotations m) as [ann|].
  - destruct (ann !! podSecurityPolicyTemplateParentAnnotation) as [v|] eqn:Hk;
      cbn; split.
    + intros ->. right. exists ann. eauto.
    + intros [|(ann' & [= <-] & [Hn|Hs])]; [done|congruence..].
    + intros _. right. exists ann. eauto.
    + done.
  - split; [by left|done].
Qed.

Lemma policy_key_elem h a key :
  key ∈ (policyByPSPTParentAnnotation h a).1 ↔
  ∃ p, policyAt h a = Some p ∧ parentOf (policyMeta p) = key ∧ key ≠ "".
Proof.
  unfold policyByPSPTParentAnnotation, policyAt, parentOf.
  destruct (h !! a) as [[p|r|k]|]; cbn;
    try (split; [by intros ?%elem_of_nil | by intros (? & ? & _)]).
  destruct (decide _) as [He|Hne]; cbn.
  - split; [by intros ?%elem_of_nil|]. intros (? & [= <-] & <- & Hne). done.
  - rewrite list_elem_of_singleton. split.
    + intros ->. eauto.
    + by intros (? & [= <-] & <- & _).
Qed.

Lemma clusterRole_key_elem h a key :
  key ∈ (clusterRoleByPSPTName h a).1 ↔
  ∃ r, clusterRoleAt h a = Some r ∧ parentOf (roleMeta r) = key ∧ key ≠ "".
Proof.
  unfold clusterRoleByPSPTName, clusterRoleAt, parentOf.
  destruct (h !! a) as [[p|r|k]|]; cbn;
    try (split; [by intros ?%elem_of_nil | by intros (? & ? & _)]).
  destruct (decide _) as [He|Hne]; cbn.
  - split; [by intros ?%elem_of_nil|]. intros (? & [= <-] & <- & Hne). done.
  - rewrite list_elem_of_singleton. split.
    + intros ->. eauto.
    + by intros (? & [= <-] & <- & _).
Qed.

(** The lookups of the lifecycle wired by [RegisterTemplate]. *)
Lemma RegisterTemplate_policy_lookup (context : UserContext) h key :
  ByIndex (policyIndexer (RegisterTemplate context)) h
    policyByPSPTParentAnnotationIndex key =
  (filter (λ a, key ∈ (policyByPSPTParentAnnotation h a).1)
     (informerStore (PodSecurityPoliciesInformer context)), None).
Proof.
  unfold RegisterTemplate, GetIndexer, AddIndexers.
  cbn [ByIndex policyIndexer informerIndexers informerStore].
  by erewrite lookup_union_Some_l by apply lookup_singleton_eq.
Qed.

Lemma RegisterTemplate_clusterRole_lookup (context : UserContext) h key :
  ByIndex (clusterRoleIndexer (RegisterTemplate context)) h
    clusterRoleByPSPTNameIndex key =
  (filter (λ a, key ∈ (clusterRoleByPSPTName h a).1)
     (informerStore (ClusterRolesInformer context)), None).
Proof.
  unfold RegisterTemplate, GetIndexer, AddIndexers.
  cbn [ByIndex clusterRoleIndexer informerIndexers informerStore].
  by erewrite lookup_union_Some_l by apply lookup_singleton_eq.
Qed.

(** C5.  Each index function gives the one-element key list holding the
    parent annotation when the object is of the function's type and the
    annotation is present and not empty, and the empty key list in every other
    case: an object of another type, a nil annotation map, a missing key, an
    empty value.  It never fails.  Hence, in the indices [RegisterTemplate]
    builds, a lookup under a key lists exactly the stored objects of the right
    type whose parent annotation is that key and is not empty; an object
    without one is listed under no key, the empty key included. *)
Theorem index_functions_keys h a :
  (∀ p, policyAt h a = Some p →
     policyByPSPTParentAnnotation h a =
       (if decide (parentOf (policyMeta p) = "") then []
        else [parentOf (policyMeta p)], None)) ∧
  (policyAt h a = None → policyByPSPTParentAnnotation h a = ([], None)) ∧
  (∀ r, clusterRoleAt h a = Some r →
     clusterRoleByPSPTName h a =
       (if decide (parentOf (roleMeta r) = "") then []
        else [parentOf (roleMeta r)], None)) ∧
  (clusterRoleAt h a = None → clusterRoleByPSPTName h a = ([], None)) ∧
  (∀ m : ObjectMeta,
     parentOf m = "" ↔
     Annotations m = None ∨
     ∃ ann, Annotations m = Some ann ∧
            (ann !! podSecurityPolicyTemplateParentAnnotation = None ∨
             ann !! podSecurityPolicyTemplateParentAnnotation = Some "")) ∧
  (∀ (context : UserContext) key,
     (a ∈ (ByIndex (policyIndexer (RegisterTemplate context)) h
             policyByPSPTParentAnnotationIndex key).1 ↔
      a ∈ informerStore (PodSecurityPoliciesInformer context) ∧
      ∃ p, policyAt h a = Some p ∧ parentOf (policyMeta p) = key ∧ key ≠ "") ∧
     (a ∈ (ByIndex (clusterRoleIndexer (RegisterTemplate context)) h
             clusterRoleByPSPTNameIndex key).1 ↔
      a ∈ informerStore (ClusterRolesInformer context) ∧
      ∃ r, clusterRoleAt h a = Some r ∧ parentOf (roleMeta r) = key ∧ key ≠ "")).
Proof.
  split_and!.
  - unfold policyByPSPTParentAnnotation, policyAt, parentOf.
    intros p Hp. destruct (h !! a) as [[p'|r|k]|]; try done.
    injection Hp as ->. by destruct (decide _).
  - unfold policyByPSPTParentAnnotation, policyAt.
    by destruct (h !! a) as [[p'|r|k]|].
  - unfold clusterRoleByPSPTName, clusterRoleAt, parentOf.
    intros r Hr. destruct (h !! a) as [[p'|r'|k]|]; try done.
    injection Hr as ->. by destruct (decide _).
  - unfold clusterRoleByPSPTName, clusterRoleAt.
    by destruct (h !! a) as [[p'|r|k]|].
  - apply parentOf_empty.
  - intros context key. split.
    + rewrite RegisterTemplate_policy_lookup. cbn [fst].
      rewrite list_elem_of_filter, policy_key_elem. tauto.
    + rewrite RegisterTemplate_clusterRole_lookup. cbn [fst].
      rewrite list_elem_of_filter, clusterRole_key_elem. tauto.
Qed.

End Index.

(** ** Create *)

Section CreateHandler.
Context `{Package, Server}.

(** C4, as the code has it.  [Create] issues no call, leaves the world as it
    is, and returns neither an object nor an error: its result is the pair
    [(nil, nil)], not the template it was given.  The other two handlers,
    when they return, give either the template they were given and no error,
    or no object and an error. *)
Theorem Create_returns_nil_nil (l : Lifecycle) (obj : PodSecurityPolicyTemplate)
    (w : World) :
  Create l obj w = (Returned (None, None), w) ∧
  (∀ r w', Updated l obj w = (Returned r, w') →
     r = (Some obj, None) ∨ ∃ m, r = (None, Some m)) ∧
  (∀ r w', Remove l obj w = (Returned r, w') →
     r = (Some obj, None) ∨ ∃ m, r = (None, Some m)).
Proof.
  split_and!.
  - reflexivity.
  - intros r w'. rewrite Updated_unfold. cbn zeta.
    destruct (ByIndex _ _ _ _).2 as [e|].
    + intros [= <- _]. right. by eexists.
    + destruct (updatePolicies _ _ _ _).1 as [[m|]|msg]; cbn; intros [= <- _];
        [right; by eexists | by left].
  - intros r w'. rewrite Remove_unfold. cbn zeta.
    destruct (ByIndex (policyIndexer l) _ _ _).2 as [e|].
    { intros [= <- _]. right. by eexists. }
    destruct (deletePolicies _ _ _).1 as [[m|]|msg]; cbn.
    + intros [= <- _]. right. by eexists.
    + destruct (ByIndex (clusterRoleIndexer l) _ _ _).2 as [e|].
      { intros [= <- _]. right. by eexists. }
      destruct (deleteClusterRoles _ _ _).1 as [[m|]|msg]; cbn; intros [= <- _];
        [right; by eexists | by left].
    + done.
Qed.

End CreateHandler.

(** C4, as the spec has it, fails: on the template [t1] the handler does not
    give [t1] back. *)
Lemma Create_does_not_return_the_template :
  (Create Fixture.lifecycle Fixture.t1 Fixture.world).1
  ≠ Returned (Some Fixture.t1, None).
Proof. cbn. discriminate. Qed.

(** ** Remove *)

Section RemoveHandler.
Context `{Package, Server}.
Implicit Types (l : Lifecycle) (obj : PodSecurityPolicyTemplate).
Implicit Types (w : World) (h : list Object) (raws : list ptr).

Lemma deletePolicies_typed l raws w w' :
  deletePolicies l raws w = (Returned None, w') →
  Forall (λ a, is_Some (policyAt (heap w) a)) raws.
Proof.
  revert w. induction raws as [|raw rest IH]; intros w Hrun; [constructor|].
  rewrite deletePolicies_step in Hrun.
  destruct (policyAt (heap w) raw) as [p|] eqn:Hp; [|done]. cbn zeta in Hrun.
  destruct (exec _ _ _).1; [done|].
  constructor; [by rewrite Hp|]. by apply IH in Hrun.
Qed.


Lemma deletePolicies_returns l raws w :
  Forall (λ a, is_Some (policyAt (heap w) a)) raws →
  ∃ e, (deletePolicies l raws w).1 = Returned e.
Proof.
  revert w. induction raws as [|raw rest IH]; intros w Hty; [by eexists|].
  rewrite deletePolicies_step. inversion_clear Hty as [|?? [p Hp] Hrest].
  rewrite Hp. cbn zeta. destruct (exec _ _ _).1; [by eexists|]. by apply IH.
Qed.

Lemma deleteClusterRoles_returns l raws w :
  Forall (λ a, is_Some (clusterRoleAt (heap w) a)) raws →
  ∃ e, (deleteClusterRoles l raws w).1 = Returned e.
Proof.
  revert w. induction raws as [|raw rest IH]; intros w Hty; [by eexists|].
  rewrite deleteClusterRoles_step. inversion_clear Hty as [|?? [p Hp] Hrest].
  rewrite Hp. cbn zeta. destruct (exec _ _ _).1; [by eexists|]. by apply IH.
Qed.

Lemma Remove_returns l obj w praws rraws :
  ByIndex (policyIndexer l) (heap w) policyByPSPTParentAnnotationIndex
    (Name (templateMeta obj)) = (praws, None) →
  ByIndex (clusterRoleIndexer l) (heap w) clusterRoleByPSPTNameIndex
    (Name (templateMeta obj)) = (rraws, None) →
  Forall (λ a, is_Some (policyAt (heap w) a)) praws →
  Forall (λ a, is_Some (clusterRoleAt (heap w) a)) rraws →
  ∃ r, (Remove l obj w).1 = Returned r.
Proof.
  intros Hp Hr Htp Htr. rewrite Remove_unfold, Hp. cbn [fst snd]. cbn zeta.
  rewrite Hr. cbn [fst snd].
  destruct (deletePolicies_returns l praws w Htp) as [e He].
  pose proof (deletePolicies_heap l praws w) as Hheap.
  rewrite He. destruct e as [m|]; [by eexists|].
  rewrite <- Hheap in Htr.
  destruct (deleteClusterRoles_returns l rraws _ Htr) as [e' He'].
  rewrite He'. destruct e'; by eexists.
Qed.



(** The two stages of [Remove]: its events are deletions of looked-up
    policies only, or the successful deletions of all of them followed by
    deletions of looked-up cluster roles. *)
Lemma Remove_stages l obj w :
  let praws := (ByIndex (policyIndexer l) (heap w) policyByPSPTParentAnnotationIndex
                  (Name (templateMeta obj))).1 in
  let rraws := (ByIndex (clusterRoleIndexer l) (heap w) clusterRoleByPSPTNameIndex
                  (Name (templateMeta obj))).1 in
  let evs := issued w (Remove l obj w).2 in
  evs.*1 `prefix_of` policyDeletions (heap w) praws ∨
  (Forall (λ a, is_Some (policyAt (heap w) a)) praws ∧
   ∃ evs2, evs = ((λ c, (c, None)) <$> policyDeletions (heap w) praws) ++ evs2 ∧
           evs2.*1 `prefix_of` clusterRoleDeletions (heap w) rraws).
Proof.
  cbn zeta. rewrite Remove_unfold. cbn zeta.
  destruct (ByIndex (policyIndexer l) _ _ _) as [praws [e|]]; cbn [fst snd].
  { left. unfold issued. rewrite drop_all. apply prefix_nil. }
  pose proof (deletePolicies_heap l praws w) as Hheap1.
  destruct (deletePolicies l praws w) as [r1 w1] eqn:Hrun1. cbn [fst snd] in *.
  pose proof (deletePolicies_ran l (heap w) _ _ _ _ eq_refl Hrun1) as Hran1.
  assert (Hstop : r1 ≠ Returned None →
    (issued w w1).*1 `prefix_of` policyDeletions (heap w) praws).
  { intros _. by apply ran_issued in Hran1 as [? _]. }
  destruct r1 as [[m|]|msg]; [left; by apply Hstop| |left; by apply Hstop].
  right. split; [by eapply deletePolicies_typed|].
  pose proof (ran_completed _ _ _ _ Hran1) as Hev1.
  assert (Hc1 : calls w1 = calls w ++ issued w w1).
  { destruct Hran1 as (cs & _ & Hc & _). by rewrite (issued_app _ _ _ Hc). }
  destruct (ByIndex (clusterRoleIndexer l) _ _ _) as [rraws [e|]]; cbn [fst snd].
  { exists []. rewrite app_nil_r. split; [done | apply prefix_nil]. }
  destruct (deleteClusterRoles l rraws w1) as [r2 w2] eqn:Hrun2. cbn [fst snd].
  pose proof (deleteClusterRoles_ran l (heap w) _ _ _ _ Hheap1 Hrun2) as Hran2.
  exists (issued w1 w2). split.
  - destruct Hran2 as (cs & _ & Hc & _).
    rewrite (issued_app _ _ _ Hc). rewrite Hc1, <- app_assoc in Hc.
    by rewrite (issued_app _ _ _ Hc), Hev1.
  - by apply ran_issued in Hran2 as [? _].
Qed.

Lemma policyDeletions_length h raws :
  Forall (λ a, is_Some (policyAt h a)) raws →
  length (policyDeletions h raws) = length raws.
Proof.
  unfold policyDeletions. rewrite length_fmap.
  induction 1 as [|a raws [p Hp] _ IH]; [done|].
  cbn. rewrite Hp. cbn. by rewrite IH.
Qed.

Lemma policyDeletions_are_deletes h raws c :
  c ∈ policyDeletions h raws → ∃ name, c = CallDelete name.
Proof.
  unfold policyDeletions. intros (p & -> & _)%list_elem_of_fmap. by eexists.
Qed.

(** C6.  In every invocation of [Remove], when a delete against the cluster
    role store is issued, at whatever position of the log, every policy the
    lookup listed has been deleted before it: the events of the invocation
    start with the successful deletions of all looked-up policies, one for
    each, and the cluster role deletion comes after them. *)
Theorem Remove_policies_before_roles l obj w i namespace name e :
  issued w (Remove l obj w).2 !! i = Some (CallDeleteNamespaced namespace name, e) →
  let praws := (ByIndex (policyIndexer l) (heap w) policyByPSPTParentAnnotationIndex
                  (Name (templateMeta obj))).1 in
  Forall (λ a, is_Some (policyAt (heap w) a)) praws ∧
  take (length praws) (issued w (Remove l obj w).2) =
    (λ c, (c, None)) <$> policyDeletions (heap w) praws ∧
  length praws ≤ i.
Proof.
  intros Hi. cbn zeta.
  destruct (Remove_stages l obj w) as [Hpre | (Hty & evs2 & Hev & Hpre2)].
  - exfalso.
    assert (Hc : (issued w (Remove l obj w).2).*1 !! i =
                 Some (CallDeleteNamespaced namespace name)).
    { by rewrite list_lookup_fmap, Hi. }
    eapply prefix_lookup_Some in Hc; [|done].
    apply list_elem_of_lookup_2, policyDeletions_are_deletes in Hc as [? ?]. done.
  - pose proof (policyDeletions_length _ _ Hty) as Hlen.
    split_and!; [done| |].
    + rewrite Hev, <- Hlen, <- (length_fmap (λ c, (c, @None error))).
      by rewrite take_app_length.
    + destruct (decide (i < length (policyDeletions (heap w)
        (ByIndex (policyIndexer l) (heap w) policyByPSPTParentAnnotationIndex
           (Name (templateMeta obj))).1))) as [Hlt|Hge]; [|lia].
      exfalso. rewrite Hev, lookup_app_l in Hi by (by rewrite length_fmap).
      rewrite list_lookup_fmap in Hi.
      destruct (policyDeletions _ _ !! i) as [c|] eqn:Hc; [|done].
      apply list_elem_of_lookup_2, policyDeletions_are_deletes in Hc as [? ->].
      done.
Qed.

End RemoveHandler.

(** ** Updated *)

Section UpdatedHandler.
Context `{Package, Server}.
Implicit Types (l : Lifecycle) (obj : PodSecurityPolicyTemplate).
Implicit Types (w : World) (h : list Object) (raws : list ptr).

Lemma updatePolicies_returns l obj h0 vs raws w :
  heap w = h0 ++ (ObjPolicy <$> vs) →
  Forall (writable obj h0) raws →
  ∃ e, (updatePolicies l obj raws w).1 = Returned e.
Proof.
  revert vs w. induction raws as [|raw rest IH]; intros vs w Hh Hwr; [by eexists|].
  rewrite updatePolicies_step.
  inversion_clear Hwr as [|?? (p & Hp & Hann) Hrest].
  rewrite Hh, (policyAt_grown_old _ _ _ _ Hp).
  destruct (decide (stale obj p)) as [Hstale|Hfresh]; [|by eapply IH].
  destruct (Hann Hstale) as [ann ->]. cbn zeta.
  destruct (Update _ _ _).1; [by eexists|].
  eapply (IH (vs ++ [synced obj p])); [|done].
  unfold afterUpdate. cbn [heap]. by rewrite Hh, fmap_app, app_assoc.
Qed.

Lemma updatePolicies_annotated l obj h0 vs raws w w' :
  heap w = h0 ++ (ObjPolicy <$> vs) →
  Forall (λ v, ¬ stale obj v) vs →
  updatePolicies l obj raws w = (Returned None, w') →
  Forall (λ p, is_Some (Annotations (policyMeta p))) (stalePolicies obj h0 raws).
Proof.
  revert vs w. induction raws as [|raw rest IH]; intros vs w Hh Hvs Hrun.
  { constructor. }
  rewrite updatePolicies_step in Hrun. rewrite stalePolicies_cons.
  destruct (policyAt (heap w) raw) as [p|] eqn:Hp; [|done].
  destruct (policyAt h0 raw) as [p0|] eqn:Hp0.
  - rewrite Hh, (policyAt_grown_old _ _ _ _ Hp0) in Hp. injection Hp as ->.
    destruct (decide (stale obj p)) as [Hstale|Hfresh]; [|by eapply IH].
    destruct (Annotations (policyMeta p)) as [ann|] eqn:Hann; [|done].
    cbn zeta in Hrun. destruct (Update _ _ _).1; [done|].
    constructor; [by rewrite Hann|].
    eapply (IH (vs ++ [synced obj p])); [| |done].
    + unfold afterUpdate. cbn [heap]. by rewrite Hh, fmap_app, app_assoc.
    + apply Forall_app. split; [done|]. constructor; [|constructor].
      by eapply synced_fresh.
  - rewrite Hh in Hp. apply policyAt_grown_new in Hp; [|done].
    pose proof (proj1 (Forall_forall _ _) Hvs _ Hp) as Hfresh.
    destruct (decide (stale obj p)); [done|]. by eapply IH.
Qed.

(** Nothing to write: the loop leaves the world as it is. *)
Lemma updatePolicies_up_to_date l obj raws w :
  Forall (λ a, ∃ p, policyAt (heap w) a = Some p ∧ ¬ stale obj p) raws →
  updatePolicies l obj raws w = (Returned None, w).
Proof.
  induction 1 as [|raw rest (p & Hp & Hfresh) _ IH]; [done|].
  rewrite updatePolicies_step, Hp. by destruct (decide (stale obj p)).
Qed.

Lemma Updated_heap l obj w :
  ∃ vs, heap (Updated l obj w).2 = heap w ++ (ObjPolicy <$> vs) ∧
        ∀ v e, (CallUpdate v, e) ∈ issued w (Updated l obj w).2 → v ∈ vs.
Proof.
  rewrite Updated_unfold. cbn zeta.
  destruct (ByIndex _ _ _ _) as [raws [e|]]; cbn [fst snd].
  - exists []. cbn. rewrite app_nil_r. split; [done|].
    unfold issued. rewrite drop_all. by intros v e' ?%elem_of_nil.
  - destruct (updatePolicies l obj raws w) as [r w'] eqn:Hrun.
    by eapply updatePolicies_heap.
Qed.

(** C10.  [Updated] writes to no object it got from the informer's store, nor
    to any other object that existed when it was called: every cell of the
    heap holds after the invocation what it held before, whatever the outcome.
    The spec copy and the annotation are applied to copies allocated during
    the invocation, and what is sent to the server is the content of such a
    copy. *)
Theorem Updated_leaves_cached_objects l obj w :
  (∀ a o, heap w !! a = Some o → heap (Updated l obj w).2 !! a = Some o) ∧
  (∀ v e, (CallUpdate v, e) ∈ issued w (Updated l obj w).2 →
     ∃ a, length (heap w) ≤ a ∧ heap (Updated l obj w).2 !! a = Some (ObjPolicy v)).
Proof.
  destruct (Updated_heap l obj w) as (vs & Hheap & Hsent). split.
  - intros a o Ha. rewrite Hheap. by apply lookup_app_l_Some.
  - intros v e Hin. apply Hsent, list_elem_of_lookup in Hin as [i Hi].
    exists (length (heap w) + i). split; [lia|].
    rewrite Hheap, lookup_app_r by lia.
    replace (length (heap w) + i - length (heap w)) with i by lia.
    by rewrite list_lookup_fmap, Hi.
Qed.

Lemma elem_of_stalePolicies obj h raws p :
  p ∈ stalePolicies obj h raws ↔
  stale obj p ∧ ∃ a, a ∈ raws ∧ policyAt h a = Some p.
Proof.
  unfold stalePolicies. rewrite list_elem_of_filter, list_elem_of_omap. done.
Qed.

(** What the two assignments change in a copy, and what they keep. *)
Lemma synced_fields obj p :
  is_Some (Annotations (policyMeta p)) →
  policySpec (synced obj p) = templateSpec obj ∧
  sourceVersion (synced obj p) = ResourceVersion (templateMeta obj) ∧
  Name (policyMeta (synced obj p)) = Name (policyMeta p) ∧
  Namespace (policyMeta (synced obj p)) = Namespace (policyMeta p) ∧
  ResourceVersion (policyMeta (synced obj p)) = ResourceVersion (policyMeta p) ∧
  ∀ k, k ≠ podSecurityPolicyTemplateVersionAnnotation →
       mapIndex (Annotations (policyMeta (synced obj p))) k =
       mapIndex (Annotations (policyMeta p)) k.
Proof.
  intros [ann Hann]. split_and!; try done.
  - by eapply sourceVersion_synced.
  - intros k Hk. unfold synced. cbn. rewrite Hann. cbn.
    by rewrite lookup_insert_ne.
Qed.

Section Stored.
(** A view of the policies the server holds, by name, for a client whose
    accepted updates store the object sent and touch no other. *)
Variable l : Lifecycle.
Variable obj : PodSecurityPolicyTemplate.
Variable get : Store → string → option PodSecurityPolicy.
Hypothesis Update_stores : ∀ p s s',
  Update (policies l) p s = (None, s') →
  get s' (Name (policyMeta p)) = Some p ∧
  ∀ n, n ≠ Name (policyMeta p) → get s' n = get s n.

Lemma issue_updates_keep ps s n :
  Forall (λ p, is_Some (Annotations (policyMeta p))) ps →
  succeeded (issue l ((λ p, CallUpdate (synced obj p)) <$> ps) s).1 →
  inSync obj get s n →
  inSync obj get (issue l ((λ p, CallUpdate (synced obj p)) <$> ps) s).2 n.
Proof.
  intros Hann. revert s. induction Hann as [|p ps Hp _ IH]; intros s Hok Hn; [done|].
  cbn in *. inversion_clear Hok as [|?? Hfirst Hrest]. cbn in Hfirst.
  apply IH; [done|].
  destruct (Update (policies l) (synced obj p) s) as [o s'] eqn:Hupd.
  cbn in *. subst o. destruct (Update_stores _ _ _ Hupd) as [Hsame Hother].
  destruct (decide (n = Name (policyMeta p))) as [->|Hne].
  - exists (synced obj p). destruct (synced_fields obj p Hp) as (? & ? & _). done.
  - destruct Hn as (q & Hq & Hgood). exists q. by rewrite Hother.
Qed.

Lemma issue_updates_stored ps s p :
  Forall (λ p, is_Some (Annotations (policyMeta p))) ps →
  succeeded (issue l ((λ p, CallUpdate (synced obj p)) <$> ps) s).1 →
  p ∈ ps →
  inSync obj get (issue l ((λ p, CallUpdate (synced obj p)) <$> ps) s).2
    (Name (policyMeta p)).
Proof.
  intros Hann. revert s. induction Hann as [|p0 ps Hp0 Hps IH]; intros s Hok Hin.
  { by apply elem_of_nil in Hin. }
  cbn in *. inversion_clear Hok as [|?? Hfirst Hrest]. cbn in Hfirst.
  apply elem_of_cons in Hin as [->|Hin]; [|by apply IH].
  apply issue_updates_keep; [done..|].
  destruct (Update (policies l) (synced obj p0) s) as [o s'] eqn:Hupd.
  cbn in *. subst o. destruct (Update_stores _ _ _ Hupd) as [Hsame _].
  exists (synced obj p0). destruct (synced_fields obj p0 Hp0) as (? & ? & _). done.
Qed.

End Stored.

Lemma Updated_returns l obj w :
  Forall (writable obj (heap w))
    (ByIndex (policyIndexer l) (heap w) policyByPSPTParentAnnotationIndex
       (Name (templateMeta obj))).1 →
  ∃ r, (Updated l obj w).1 = Returned r.
Proof.
  intros Hwr. rewrite Updated_unfold. cbn zeta.
  destruct (ByIndex _ _ _ _) as [raws [e|]]; cbn [fst snd] in *; [by eexists|].
  destruct (updatePolicies_returns l obj (heap w) [] raws w) as [e He];
    [by rewrite app_nil_r | done |].
  rewrite He. destruct e; by eexists.
Qed.

(** C1.  Let the policy lookup under the template's name answer [praws]; the
    policies concerned are those of [praws] whose source-version annotation
    differs from the template's resource version.  When [Updated] returns
    without error, it returns the template, and it has written back exactly
    one object for each policy concerned, in lookup order and with success:
    the policy's copy with the template's spec as its spec and the template's
    resource version as its source-version annotation, its name, namespace,
    resource version and other annotations kept.  On a server whose accepted
    updates store the object sent under its name and touch no other, every
    policy concerned then has the template's spec and the template's version
    as source version.  [Updated] does return without error whenever the
    looked-up policies can be written and the server accepts the writes. *)
Theorem Updated_propagates_template l obj w praws :
  ByIndex (policyIndexer l) (heap w) policyByPSPTParentAnnotationIndex
    (Name (templateMeta obj)) = (praws, None) →
  (∀ p, p ∈ stalePolicies obj (heap w) praws ↔
        stale obj p ∧ ∃ a, a ∈ praws ∧ policyAt (heap w) a = Some p) ∧
  (∀ t w', Updated l obj w = (Returned (t, None), w') →
     t = Some obj ∧
     issued w w' =
       (λ p, (CallUpdate (synced obj p), None)) <$> stalePolicies obj (heap w) praws ∧
     (∀ p, p ∈ stalePolicies obj (heap w) praws →
        policySpec (synced obj p) = templateSpec obj ∧
        sourceVersion (synced obj p) = ResourceVersion (templateMeta obj) ∧
        Name (policyMeta (synced obj p)) = Name (policyMeta p) ∧
        Namespace (policyMeta (synced obj p)) = Namespace (policyMeta p) ∧
        ResourceVersion (policyMeta (synced obj p)) = ResourceVersion (policyMeta p) ∧
        ∀ k, k ≠ podSecurityPolicyTemplateVersionAnnotation →
             mapIndex (Annotations (policyMeta (synced obj p))) k =
             mapIndex (Annotations (policyMeta p)) k) ∧
     (∀ get : Store → string → option PodSecurityPolicy,
        (∀ p s s', Update (policies l) p s = (None, s') →
           get s' (Name (policyMeta p)) = Some p ∧
           ∀ n, n ≠ Name (policyMeta p) → get s' n = get s n) →
        ∀ p, p ∈ stalePolicies obj (heap w) praws →
          ∃ q, get (store w') (Name (policyMeta p)) = Some q ∧
               policySpec q = templateSpec obj ∧
               sourceVersion q = ResourceVersion (templateMeta obj))) ∧
  (Forall (writable obj (heap w)) praws →
   succeeded (issue l (policyUpdates obj (heap w) praws) (store w)).1 →
   (Updated l obj w).1 = Returned (Some obj, None)).
Proof.
  intros Hfound. split_and!.
  - apply elem_of_stalePolicies.
  - intros t w' Hrun.
    destruct (Updated_ran _ _ _ _ _ _ Hfound Hrun) as (r0 & Hran & Hfin).
    destruct r0 as [[m|]|msg]; try done. injection Hfin as ->.
    assert (Hann : Forall (λ p, is_Some (Annotations (policyMeta p)))
                     (stalePolicies obj (heap w) praws)).
    { rewrite Updated_unfold, Hfound in Hrun. cbn in Hrun.
      destruct (updatePolicies l obj praws w) as [[[m|]|msg] w1] eqn:Hloop;
        cbn in Hrun; try done.
      eapply (updatePolicies_annotated l obj (heap w) []);
        [by rewrite app_nil_r | done | done]. }
    split_and!; try done.
    + pose proof (ran_completed _ _ _ _ Hran) as Hev.
      rewrite Hev. unfold policyUpdates. by rewrite <- list_fmap_compose.
    + intros p Hp. apply synced_fields.
      by eapply (proj1 (Forall_forall _ _) Hann).
    + intros get Hget p Hp.
      destruct Hran as (cs & _ & _ & Hstore & -> & Hok). rewrite Hstore.
      by apply issue_updates_stored.
  - intros Hwr Hok.
    destruct (Updated_returns l obj w) as [r Hret]; [by rewrite Hfound|].
    destruct (Updated l obj w) as [r' w'] eqn:Hrun. cbn [fst] in *. subst r'.
    destruct (Updated_ran _ _ _ _ _ _ Hfound Hrun) as (r0 & Hran & Hfin).
    by destruct (ran_accepts _ _ _ _ _ Hran Hok) as [->|[msg ->]].
Qed.

Lemma updatePolicies_copies l obj h0 vs raws w w' :
  heap w = h0 ++ (ObjPolicy <$> vs) →
  Forall (λ v, ¬ stale obj v) vs →
  updatePolicies l obj raws w = (Returned None, w') →
  heap w' = heap w ++ (ObjPolicy <$> (synced obj <$> stalePolicies obj h0 raws)).
Proof.
  revert vs w. induction raws as [|raw rest IH]; intros vs w Hh Hvs Hrun.
  { injection Hrun as <-. cbn. by rewrite app_nil_r. }
  rewrite updatePolicies_step in Hrun. rewrite stalePolicies_cons.
  destruct (policyAt (heap w) raw) as [p|] eqn:Hp; [|done].
  destruct (policyAt h0 raw) as [p0|] eqn:Hp0.
  - rewrite Hh, (policyAt_grown_old _ _ _ _ Hp0) in Hp. injection Hp as ->.
    destruct (decide (stale obj p)) as [Hstale|Hfresh]; [|by eapply IH].
    destruct (Annotations (policyMeta p)) as [ann|] eqn:Hann; [|done].
    cbn zeta in Hrun. destruct (Update _ _ _).1; [done|].
    assert (Hh' : heap (afterUpdate (synced obj p)
                          (Update (policies l) (synced obj p) (store w)) w) =
                  h0 ++ (ObjPolicy <$> (vs ++ [synced obj p]))).
    { unfold afterUpdate. cbn [heap]. by rewrite Hh, fmap_app, app_assoc. }
    assert (Hvs' : Forall (λ v, ¬ stale obj v) (vs ++ [synced obj p])).
    { apply Forall_app. split; [done|]. constructor; [|constructor].
      by eapply synced_fresh. }
    rewrite (IH _ _ Hh' Hvs' Hrun).
    unfold afterUpdate. cbn [heap fmap list_fmap]. by rewrite <- app_assoc.
  - rewrite Hh in Hp. apply policyAt_grown_new in Hp; [|done].
    pose proof (proj1 (Forall_forall _ _) Hvs _ Hp) as Hfresh.
    destruct (decide (stale obj p)); [done|]. by eapply IH.
Qed.

(** What holds of the calls of every invocation of [Updated]. *)
Lemma Updated_issued l obj w :
  (issued w (Updated l obj w).2).*1 `prefix_of`
    policyUpdates obj (heap w)
      (ByIndex (policyIndexer l) (heap w) policyByPSPTParentAnnotationIndex
         (Name (templateMeta obj))).1 ∧
  issued w (Updated l obj w).2 =
    (issue l (issued w (Updated l obj w).2).*1 (store w)).1 ∧
  store (Updated l obj w).2 =
    (issue l (issued w (Updated l obj w).2).*1 (store w)).2.
Proof.
  destruct (ByIndex (policyIndexer l) (heap w) policyByPSPTParentAnnotationIndex
              (Name (templateMeta obj))) as [raws [e|]] eqn:Hfound; cbn [fst].
  - rewrite Updated_unfold, Hfound. cbn. unfold issued. rewrite drop_all. cbn.
    split_and!; try done. apply prefix_nil.
  - destruct (Updated l obj w) as [r w'] eqn:Hrun.
    destruct (Updated_ran _ _ _ _ _ _ Hfound Hrun) as (r0 & Hran & _).
    by apply ran_issued in Hran.
Qed.

Lemma Updated_up_to_date l obj w raws :
  ByIndex (policyIndexer l) (heap w) policyByPSPTParentAnnotationIndex
    (Name (templateMeta obj)) = (raws, None) →
  Forall (λ a, ∃ p, policyAt (heap w) a = Some p ∧ ¬ stale obj p) raws →
  Updated l obj w = (Returned (Some obj, None), w).
Proof.
  intros Hfound Hfresh. rewrite Updated_unfold, Hfound. cbn.
  by rewrite updatePolicies_up_to_date.
Qed.

(** The informer's store after the writes [vs] were delivered. *)
Lemma deliver_heap (vs : list PodSecurityPolicy) hi :
  (deliver ((λ v, (CallUpdate v, None)) <$> vs) hi).1 = hi.1 ++ (ObjPolicy <$> vs).
Proof.
  revert hi. induction vs as [|v vs IH]; intros hi; cbn.
  - by rewrite app_nil_r.
  - rewrite IH. cbn. by rewrite <- app_assoc.
Qed.

Lemma deliver_indexers (vs : list PodSecurityPolicy) hi :
  informerIndexers (deliver ((λ v, (CallUpdate v, None)) <$> vs) hi).2 =
  informerIndexers hi.2.
Proof.
  revert hi. induction vs as [|v vs IH]; intros hi; cbn; [done|]. by rewrite IH.
Qed.

Lemma holdsPolicy_grown h h1 v a :
  a < length h → holdsPolicy (h ++ h1) v a = holdsPolicy h v a.
Proof. intros Ha. unfold holdsPolicy. by rewrite lookup_app_l. Qed.

Lemma deliver_store (vs : list PodSecurityPolicy) hi a :
  a ∈ informerStore (deliver ((λ v, (CallUpdate v, None)) <$> vs) hi).2 →
  length hi.1 ≤ a ∨
  (a ∈ informerStore hi.2 ∧ ∀ v, v ∈ vs → holdsPolicy hi.1 v a = false).
Proof.
  revert hi. induction vs as [|v vs IH]; intros [h i]; cbn [fmap list_fmap deliver].
  { intros Ha. right. split; [done|]. by intros v ?%elem_of_nil. }
  intros Ha. apply IH in Ha. cbn [onUpdate fst snd informerStore] in Ha.
  destruct (decide (length h ≤ a)) as [|Hlt]; [by left|]. right.
  destruct Ha as [Ha|[Ha Hrest]]; [rewrite length_app in Ha; lia|].
  assert (Hin : a ∈ informerStore i ∧ holdsPolicy h v a = false).
  { destruct (existsb (holdsPolicy h v) (informerStore i)) eqn:Hex.
    - apply list_elem_of_fmap in Ha as (a0 & -> & Ha0).
      destruct (holdsPolicy h v a0) eqn:Hh; [lia|done].
    - apply elem_of_app in Ha as [Ha|Ha%list_elem_of_singleton]; [|lia].
      split; [done|].
      destruct (holdsPolicy h v a) eqn:Hh; [|done].
      assert (existsb (holdsPolicy h v) (informerStore i) = true); [|congruence].
      apply existsb_exists. exists a. split; [by apply list_elem_of_In|done]. }
  destruct Hin as [Hin Hv]. split; [done|].
  intros v' [->|Hv']%elem_of_cons; [done|].
  cbn [fst]. rewrite <- (Hrest v' Hv'). symmetry. apply holdsPolicy_grown. lia.
Qed.

Lemma holdsPolicy_synced obj h a p :
  policyAt h a = Some p → holdsPolicy h (synced obj p) a = true.
Proof.
  unfold policyAt, holdsPolicy. destruct (h !! a) as [[p'|r|k]|]; try done.
  intros [= ->]. by apply bool_decide_eq_true.
Qed.

(** After a successful [Updated] whose writes the informer has heard of,
    every policy the lookup lists is in sync with the template. *)
Lemma Updated_then_delivered (context : UserContext) obj w w1 a :
  Updated (RegisterTemplate context) obj w = (Returned (Some obj, None), w1) →
  let hi := deliver (issued w w1) (heap w1, PodSecurityPoliciesInformer context) in
  a ∈ informerStore hi.2 →
  Name (templateMeta obj) ∈ (policyByPSPTParentAnnotation hi.1 a).1 →
  ∃ p, policyAt hi.1 a = Some p ∧ ¬ stale obj p.
Proof.
  intros Hrun. cbn zeta.
  pose proof (RegisterTemplate_policy_lookup context (heap w)
                (Name (templateMeta obj))) as Hfound.
  set (l := RegisterTemplate context) in *.
  set (R := filter _ _) in Hfound.
  set (SP := stalePolicies obj (heap w) R).
  destruct (Updated_ran _ _ _ _ _ _ Hfound Hrun) as (r0 & Hran & Hfin).
  destruct r0 as [[m|]|msg]; try done.
  assert (Hev : issued w w1 = (λ v, (CallUpdate v, None)) <$> (synced obj <$> SP)).
  { rewrite (ran_completed _ _ _ _ Hran). unfold policyUpdates.
    by rewrite <- !list_fmap_compose. }
  rewrite Updated_unfold, Hfound in Hrun. cbn in Hrun.
  destruct (updatePolicies l obj R w) as [[[m|]|msg] w1'] eqn:Hloop;
    cbn in Hrun; try done.
  injection Hrun as ->.
  assert (Hann : Forall (λ p, is_Some (Annotations (policyMeta p))) SP).
  { eapply (updatePolicies_annotated l obj (heap w) []);
      [by rewrite app_nil_r | done | done]. }
  assert (Hheap : heap w1 = heap w ++ (ObjPolicy <$> (synced obj <$> SP))).
  { eapply (updatePolicies_copies l obj (heap w) []);
      [by rewrite app_nil_r | done | done]. }
  rewrite Hev. intros Hstore Hkey.
  apply deliver_store in Hstore. rewrite deliver_heap in *. cbn [fst snd] in *.
  apply policy_key_elem in Hkey as (q & Hq & Hparent & Hne).
  exists q. split; [done|].
  rewrite Hheap, <- app_assoc, <- fmap_app in Hq.
  destruct (policyAt (heap w) a) as [q0|] eqn:Hq0.
  - rewrite (policyAt_grown_old _ _ _ _ Hq0) in Hq. injection Hq as ->.
    intros Hstale.
    assert (Hlt : a < length (heap w)).
    { unfold policyAt in Hq0. destruct (heap w !! a) eqn:Hl; [|done].
      by eapply lookup_lt_Some. }
    destruct Hstore as [Hge|[Hin Hnot]].
    { rewrite Hheap, length_app in Hge. lia. }
    assert (HSP : q ∈ SP).
    { apply elem_of_stalePolicies. split; [done|]. exists a. split; [|done].
      apply list_elem_of_filter. split; [|done].
      apply policy_key_elem. eauto. }
    specialize (Hnot (synced obj q)).
    rewrite (holdsPolicy_synced obj (heap w1) a q) in Hnot.
    + by discriminate Hnot; apply list_elem_of_fmap_2.
    + rewrite Hheap. by apply policyAt_grown_old.
  - apply policyAt_grown_new in Hq; [|done].
    apply elem_of_app in Hq.
    assert (Hq' : q ∈ synced obj <$> SP) by (by destruct Hq).
    apply list_elem_of_fmap in Hq' as (p & -> & Hp).
    destruct (proj1 (Forall_forall _ _) Hann _ Hp) as [ann Hp'].
    by eapply synced_fresh.
Qed.

(** C2, as the code has it.  The calls of an invocation of [Updated] are
    writes for policies of the lookup whose source-version annotation differs
    from the template's resource version, at most one for each and in lookup
    order; none is made for a policy whose annotation already equals it.  So
    when every looked-up policy carries the template's version, [Updated]
    issues no call and leaves the server as it is, and it returns the template
    with the whole world untouched.  A second [Updated] with the same template
    issues no call once the informer has heard of the writes of a successful
    first one: [Updated] reads the policies of the informer's store and writes
    copies of them, so that store is what has to carry the new version. *)
Theorem Updated_skips_synced_policies l obj w (context : UserContext) w1 :
  ((issued w (Updated l obj w).2).*1 `prefix_of`
     policyUpdates obj (heap w)
       (ByIndex (policyIndexer l) (heap w) policyByPSPTParentAnnotationIndex
          (Name (templateMeta obj))).1 ∧
   ∀ v e, (CallUpdate v, e) ∈ issued w (Updated l obj w).2 →
     ∃ a p, a ∈ (ByIndex (policyIndexer l) (heap w) policyByPSPTParentAnnotationIndex
                   (Name (templateMeta obj))).1 ∧
            policyAt (heap w) a = Some p ∧
            sourceVersion p ≠ ResourceVersion (templateMeta obj) ∧
            v = synced obj p) ∧
  ((∀ a p, a ∈ (ByIndex (policyIndexer l) (heap w) policyByPSPTParentAnnotationIndex
                  (Name (templateMeta obj))).1 →
           policyAt (heap w) a = Some p →
           sourceVersion p = ResourceVersion (templateMeta obj)) →
   issued w (Updated l obj w).2 = [] ∧ store (Updated l obj w).2 = store w) ∧
  (∀ raws,
     ByIndex (policyIndexer l) (heap w) policyByPSPTParentAnnotationIndex
       (Name (templateMeta obj)) = (raws, None) →
     Forall (λ a, ∃ p, policyAt (heap w) a = Some p ∧
                       sourceVersion p = ResourceVersion (templateMeta obj)) raws →
     Updated l obj w = (Returned (Some obj, None), w)) ∧
  (Updated (RegisterTemplate context) obj w = (Returned (Some obj, None), w1) →
   let hi := deliver (issued w w1) (heap w1, PodSecurityPoliciesInformer context) in
   let context2 := {| PodSecurityPolicies := PodSecurityPolicies context;
                      PodSecurityPoliciesInformer := hi.2;
                      ClusterRoles := ClusterRoles context;
                      ClusterRolesInformer := ClusterRolesInformer context |} in
   let w2 := {| heap := hi.1; store := store w1; calls := calls w1 |} in
   Updated (RegisterTemplate context2) obj w2 = (Returned (Some obj, None), w2)).
Proof.
  destruct (Updated_issued l obj w) as (Hpre & Hev & Hstore).
  split_and!.
  - done.
  - intros v e Hin.
    assert (Hc : CallUpdate v ∈ (issued w (Updated l obj w).2).*1).
    { apply list_elem_of_fmap. by exists (CallUpdate v, e). }
    destruct Hpre as [rest Hrest]. unfold policyUpdates in Hrest.
    assert (Hc' : CallUpdate v ∈
      (λ p, CallUpdate (synced obj p)) <$> stalePolicies obj (heap w)
        (ByIndex (policyIndexer l) (heap w) policyByPSPTParentAnnotationIndex
           (Name (templateMeta obj))).1).
    { rewrite Hrest. apply elem_of_app. by left. }
    apply list_elem_of_fmap in Hc' as (p & [= ->] & Hp).
    apply elem_of_stalePolicies in Hp as (Hstale & a & Ha & Hp). eauto 10.
  - intros Hsync.
    assert (Hnone : policyUpdates obj (heap w)
      (ByIndex (policyIndexer l) (heap w) policyByPSPTParentAnnotationIndex
         (Name (templateMeta obj))).1 = []).
    { unfold policyUpdates. destruct (stalePolicies _ _ _) as [|p ps] eqn:Hsp; [done|].
      assert (Hp : p ∈ p :: ps) by (by apply elem_of_cons; left).
      rewrite <- Hsp in Hp.
      apply elem_of_stalePolicies in Hp as (Hstale & a & Ha & Hp).
      by destruct (Hstale (Hsync _ _ Ha Hp)). }
    rewrite Hnone in Hpre. apply prefix_nil_inv in Hpre.
    apply fmap_nil_inv in Hpre as Hnil. rewrite Hpre in Hstore.
    by rewrite Hnil.
  - intros raws Hfound Hsync. apply (Updated_up_to_date l obj w raws); [done|].
    eapply Forall_impl; [done|]. intros a (p & Hp & Hv). exists p. split; [done|].
    intros Hstale. by apply Hstale.
  - intros Hrun. cbn zeta.
    eapply Updated_up_to_date.
    + apply RegisterTemplate_policy_lookup.
    + apply Forall_forall. intros a [Hkey Ha]%list_elem_of_filter.
      cbn [PodSecurityPoliciesInformer heap] in *.
      by apply (Updated_then_delivered context obj w w1 a Hrun).
Qed.

Lemma parentOf_annotated (m : ObjectMeta) :
  parentOf m ≠ "" → is_Some (Annotations m).
Proof. unfold parentOf, mapIndex. by destruct (Annotations m). Qed.

(** C9.  Suppose every object the policy lookup returns is a policy with a
    parent annotation that is not empty.  Then each of them has an annotation
    map that is not nil, so the assignment of the source-version annotation to
    its copy is defined, and [Updated] returns a result: it does not panic, on
    a nil map or otherwise.  The index [RegisterTemplate] builds from
    [policyByPSPTParentAnnotation] guarantees the supposition, for every key
    and every state of the informer's store. *)
Theorem Updated_annotation_write_defined l obj w (context : UserContext) h key :
  ((∀ a, a ∈ (ByIndex (policyIndexer l) (heap w) policyByPSPTParentAnnotationIndex
                (Name (templateMeta obj))).1 →
         ∃ p, policyAt (heap w) a = Some p ∧ parentOf (policyMeta p) ≠ "") →
   (∀ a p, a ∈ (ByIndex (policyIndexer l) (heap w) policyByPSPTParentAnnotationIndex
                  (Name (templateMeta obj))).1 →
           policyAt (heap w) a = Some p → is_Some (Annotations (policyMeta p))) ∧
   ∃ r, (Updated l obj w).1 = Returned r) ∧
  (∀ a, a ∈ (ByIndex (policyIndexer (RegisterTemplate context)) h
               policyByPSPTParentAnnotationIndex key).1 →
        ∃ p, policyAt h a = Some p ∧ parentOf (policyMeta p) ≠ "").
Proof.
  split.
  - intros Hpre. split.
    + intros a p Ha Hp. destruct (Hpre a Ha) as (p' & Hp' & Hne).
      rewrite Hp in Hp'. injection Hp' as <-. by apply parentOf_annotated.
    + apply Updated_returns, Forall_forall. intros a Ha.
      destruct (Hpre a Ha) as (p & Hp & Hne). exists p. split; [done|].
      intros _. by apply parentOf_annotated.
  - intros a Ha. rewrite RegisterTemplate_policy_lookup in Ha. cbn [fst] in Ha.
    apply list_elem_of_filter in Ha as [Hkey _].
    apply policy_key_elem in Hkey as (p & Hp & <- & Hne). eauto.
Qed.

End UpdatedHandler.

(** ** Failures *)

Section Failures.
Context `{Package, Server}.
Implicit Types (l : Lifecycle) (obj : PodSecurityPolicyTemplate).
Implicit Types (w : World) (h : list Object) (raws : list ptr).

(** The run of a plan whose call number [length pre + 1] is the first to fail. *)
Lemma ran_kth l pre c post w r w' e :
  ran l (pre ++ c :: post) w r w' →
  succeeded (issue l pre (store w)).1 →
  (exec l c (issue l pre (store w)).2).1 = Some e →
  (∃ msg, r = Panicked msg) ∨
  (r = Returned (Some (wrap c e)) ∧
   issued w w' = (issue l (pre ++ [c]) (store w)).1 ∧
   store w' = (issue l (pre ++ [c]) (store w)).2).
Proof.
  intros (cs & Hpre & Hc & Hs & Hr) Hok He.
  assert (Hfail : (issue l (pre ++ [c]) (store w)).1 !! length pre = Some (c, Some e)).
  { rewrite issue_app. cbn. rewrite He.
    rewrite lookup_app_r by (by rewrite issue_length).
    by rewrite issue_length, Nat.sub_diag. }
  assert (Hpc : (pre ++ [c]) `prefix_of` (pre ++ c :: post)).
  { exists post. by rewrite <- app_assoc. }
  rewrite (issued_app _ _ _ Hc).
  destruct (prefix_weak_total _ _ _ Hpre Hpc) as [Hcs|Hcs].
  - (* the loop stopped at or before the failing call *)
    destruct (decide (length cs = length (pre ++ [c]))) as [Hlen|Hlen].
    + assert (cs = pre ++ [c]) as ->.
      { destruct Hcs as [k Hk]. rewrite Hk, length_app in Hlen.
        destruct k; [by rewrite app_nil_r in Hk|cbn in Hlen; lia]. }
      destruct r as [[m|]|msg]; [|exfalso|by left; eexists].
      * right. destruct Hr as (pre' & c' & e' & Hev & Hok' & ->).
        destruct (failure_is_last _ _ _ _ _ _ _ Hev Hok' Hfail) as (_ & -> & ->).
        done.
      * destruct Hr as [_ Hr]. exact (succeeded_no_failure _ _ _ _ Hr Hfail).
    + assert (Hcs' : cs `prefix_of` pre).
      { destruct Hcs as [k Hk]. destruct (decide (k = [])) as [->|Hk'].
        - rewrite app_nil_r in Hk. by subst.
        - destruct (exists_last Hk') as (k' & x & ->).
          rewrite app_assoc in Hk. apply app_inj_tail in Hk as [-> _].
          by eexists. }
      assert (Hall : succeeded (issue l cs (store w)).1).
      { eapply succeeded_prefix; [|done]. by apply issue_prefix. }
      destruct r as [[m|]|msg]; [exfalso|exfalso|by left; eexists].
      * destruct Hr as (pre' & c' & e' & Hev & _ & _). rewrite Hev in Hall.
        apply succeeded_app in Hall as [_ Hall]. by inversion Hall.
      * destruct Hr as [-> _]. apply prefix_length in Hcs'.
        rewrite length_app in Hcs'. cbn in Hcs'. lia.
  - (* the loop went on past the failing call *)
    assert (Hfail' : (issue l cs (store w)).1 !! length pre = Some (c, Some e)).
    { eapply prefix_lookup_Some; [done|]. by apply issue_prefix. }
    destruct r as [[m|]|msg].
    + right. destruct Hr as (pre' & c' & e' & Hev & Hok' & ->).
      destruct (failure_is_last _ _ _ _ _ _ _ Hev Hok' Hfail') as (Hlen & <- & <-).
      rewrite issue_length in Hlen.
      assert (cs = pre ++ [c]) as ->; [|done].
      destruct Hcs as [k Hk]. rewrite Hk, !length_app in Hlen. cbn in Hlen.
      destruct k; [by rewrite app_nil_r in Hk|cbn in Hlen; lia].
    + exfalso. destruct Hr as [_ Hr]. exact (succeeded_no_failure _ _ _ _ Hr Hfail').
    + exfalso. exact (succeeded_no_failure _ _ _ _ Hr Hfail').
Qed.

Lemma ran_completed_succeeded l full w w' :
  ran l full w (Returned None) w' → succeeded (issued w w').
Proof.
  intros Hran. rewrite (ran_completed _ _ _ _ Hran). apply succeeded_fmap_None.
Qed.

Lemma issued_refl w : issued w w = [].
Proof. unfold issued. apply drop_all. Qed.

Lemma Updated_failure l obj w i c e :
  issued w (Updated l obj w).2 !! i = Some (c, Some e) →
  (Updated l obj w).1 = Returned (None, Some (wrap c e)) ∧
  S i = length (issued w (Updated l obj w).2).
Proof.
  destruct (ByIndex (policyIndexer l) (heap w) policyByPSPTParentAnnotationIndex
              (Name (templateMeta obj))) as [raws [e'|]] eqn:Hfound.
  - rewrite Updated_unfold, Hfound. cbn. by rewrite issued_refl.
  - destruct (Updated l obj w) as [r w'] eqn:Hrun. cbn [fst snd]. intros Hi.
    destruct (Updated_ran _ _ _ _ _ _ Hfound Hrun) as (r0 & Hran & ->).
    by destruct (ran_failure _ _ _ _ _ _ _ _ Hran Hi) as [-> ?].
Qed.

Lemma Remove_failure l obj w i c e :
  issued w (Remove l obj w).2 !! i = Some (c, Some e) →
  (Remove l obj w).1 = Returned (None, Some (wrap c e)) ∧
  S i = length (issued w (Remove l obj w).2).
Proof.
  destruct (ByIndex (policyIndexer l) (heap w) policyByPSPTParentAnnotationIndex
              (Name (templateMeta obj))) as [praws [e'|]] eqn:Hp.
  { rewrite Remove_unfold, Hp. cbn. by rewrite issued_refl. }
  destruct (Remove l obj w) as [r w'] eqn:Hrun. cbn [fst snd]. intros Hi.
  destruct (ByIndex (clusterRoleIndexer l) (heap w) clusterRoleByPSPTNameIndex
              (Name (templateMeta obj))) as [rraws [e'|]] eqn:Hr.
  - destruct (Remove_ran_policies l obj w praws e' r w' Hp) as (r0 & Hran & ->);
      [by rewrite Hr | done |].
    by destruct (ran_failure _ _ _ _ _ _ _ _ Hran Hi) as [-> ?].
  - destruct (Remove_ran _ _ _ _ _ _ _ Hp Hr Hrun) as (r0 & Hran & ->).
    by destruct (ran_failure _ _ _ _ _ _ _ _ Hran Hi) as [-> ?].
Qed.

(** What holds of the calls of every invocation of [Remove]. *)
Lemma Remove_issued l obj w :
  (issued w (Remove l obj w).2).*1 `prefix_of`
    policyDeletions (heap w)
      (ByIndex (policyIndexer l) (heap w) policyByPSPTParentAnnotationIndex
         (Name (templateMeta obj))).1 ++
    clusterRoleDeletions (heap w)
      (ByIndex (clusterRoleIndexer l) (heap w) clusterRoleByPSPTNameIndex
         (Name (templateMeta obj))).1 ∧
  issued w (Remove l obj w).2 =
    (issue l (issued w (Remove l obj w).2).*1 (store w)).1 ∧
  store (Remove l obj w).2 =
    (issue l (issued w (Remove l obj w).2).*1 (store w)).2.
Proof.
  destruct (ByIndex (policyIndexer l) (heap w) policyByPSPTParentAnnotationIndex
              (Name (templateMeta obj))) as [praws [e'|]] eqn:Hp.
  { rewrite Remove_unfold, Hp. cbn. rewrite issued_refl. cbn.
    split_and!; try done. apply prefix_nil. }
  destruct (Remove l obj w) as [r w'] eqn:Hrun. cbn [fst snd].
  destruct (ByIndex (clusterRoleIndexer l) (heap w) clusterRoleByPSPTNameIndex
              (Name (templateMeta obj))) as [rraws [e'|]] eqn:Hr.
  - destruct (Remove_ran_policies l obj w praws e' r w' Hp) as (r0 & Hran & _);
      [by rewrite Hr | done |].
    apply ran_issued in Hran as (? & ? & ?). split_and!; try done.
    by apply prefix_app_r.
  - destruct (Remove_ran _ _ _ _ _ _ _ Hp Hr Hrun) as (r0 & Hran & _).
    by apply ran_issued in Hran.
Qed.

(** C7, as the code has it.  [Remove] treats every error of a delete call
    alike, a report that the object does not exist included: whatever the
    error [e] says, the invocation ends with that call, which is the last of
    its log, and returns no object and the error [e] behind the prefix of the
    loop.  Only a delete that reports no error lets [Remove] go on to the next
    one. *)
Theorem Remove_aborts_on_any_delete_error l obj w i c e :
  issued w (Remove l obj w).2 !! i = Some (c, Some e) →
  (Remove l obj w).1 = Returned (None, Some (wrap c e)) ∧
  S i = length (issued w (Remove l obj w).2) ∧
  ((∃ name, c = CallDelete name ∧ wrap c e = "error deleting policy: " +:+ e) ∨
   (∃ namespace name, c = CallDeleteNamespaced namespace name ∧
                      wrap c e = "error deleting cluster role: " +:+ e)).
Proof.
  intros Hi. destruct (Remove_failure _ _ _ _ _ _ Hi) as [Hret Hlast].
  split_and!; try done.
  destruct (Remove_issued l obj w) as ([rest Hpre] & _ & _).
  assert (Hc : c ∈ (issued w (Remove l obj w).2).*1).
  { apply list_elem_of_fmap. exists (c, Some e). split; [done|].
    by eapply list_elem_of_lookup_2. }
  assert (Hc' : c ∈ (issued w (Remove l obj w).2).*1 ++ rest).
  { apply elem_of_app. by left. }
  rewrite <- Hpre in Hc'. apply elem_of_app in Hc' as [Hc'|Hc'].
  - left. unfold policyDeletions in Hc'.
    apply list_elem_of_fmap in Hc' as (p & -> & _). by eexists.
  - right. unfold clusterRoleDeletions in Hc'.
    apply list_elem_of_fmap in Hc' as (r & -> & _). by do 2 eexists.
Qed.

(** C8.  Every failure ends the invocation and is returned, behind the
    prefix that tells where it happened.
    - A failed policy lookup: [Updated] and [Remove] return its error and
      issue no call.
    - A failed cluster role lookup: [Remove] has issued policy deletions only;
      it returns the lookup's error when they all succeeded, and the error of
      the failed deletion otherwise.
    - A failed call, in [Updated] or in [Remove], is the last call of the
      invocation, and its error is returned.
    - When the [K]-th of the planned calls is the first to fail, the
      invocation issues exactly the first [K] calls and returns the error of
      the [K]-th; the server is in the state in which these calls left it.
    - The calls of an invocation are an initial segment of the planned ones,
      each issued once and on the state the previous one left: nothing is
      retried and nothing is undone.
    - A handler that returns no error met none: its lookups answered and
      every call it issued succeeded. *)
Theorem failures_abort_and_surface l obj w :
  (∀ e, (policyLookup l obj w).2 = Some e →
     Updated l obj w = (Returned (None, Some ("error getting policies: " +:+ e)), w) ∧
     Remove l obj w = (Returned (None, Some ("error getting policies: " +:+ e)), w)) ∧
  (∀ e, (policyLookup l obj w).2 = None → (clusterRoleLookup l obj w).2 = Some e →
     (issued w (Remove l obj w).2).*1 `prefix_of`
       policyDeletions (heap w) (policyLookup l obj w).1 ∧
     (((Remove l obj w).1 =
         Returned (None, Some ("error getting cluster roles: " +:+ e)) ∧
       succeeded (issued w (Remove l obj w).2)) ∨
      (∃ c e', last (issued w (Remove l obj w).2) = Some (c, Some e') ∧
               (Remove l obj w).1 = Returned (None, Some (wrap c e'))) ∨
      (∃ msg, (Remove l obj w).1 = Panicked msg))) ∧
  (∀ i c e, issued w (Updated l obj w).2 !! i = Some (c, Some e) →
     (Updated l obj w).1 = Returned (None, Some (wrap c e)) ∧
     S i = length (issued w (Updated l obj w).2)) ∧
  (∀ i c e, issued w (Remove l obj w).2 !! i = Some (c, Some e) →
     (Remove l obj w).1 = Returned (None, Some (wrap c e)) ∧
     S i = length (issued w (Remove l obj w).2)) ∧
  (∀ pre c post e,
     (policyLookup l obj w).2 = None →
     Forall (writable obj (heap w)) (policyLookup l obj w).1 →
     policyUpdates obj (heap w) (policyLookup l obj w).1 = pre ++ c :: post →
     succeeded (issue l pre (store w)).1 →
     (exec l c (issue l pre (store w)).2).1 = Some e →
     (Updated l obj w).1 = Returned (None, Some (wrap c e)) ∧
     issued w (Updated l obj w).2 = (issue l (pre ++ [c]) (store w)).1 ∧
     store (Updated l obj w).2 = (issue l (pre ++ [c]) (store w)).2) ∧
  (∀ pre c post e,
     (policyLookup l obj w).2 = None → (clusterRoleLookup l obj w).2 = None →
     Forall (λ a, is_Some (policyAt (heap w) a)) (policyLookup l obj w).1 →
     Forall (λ a, is_Some (clusterRoleAt (heap w) a)) (clusterRoleLookup l obj w).1 →
     policyDeletions (heap w) (policyLookup l obj w).1 ++
       clusterRoleDeletions (heap w) (clusterRoleLookup l obj w).1 = pre ++ c :: post →
     succeeded (issue l pre (store w)).1 →
     (exec l c (issue l pre (store w)).2).1 = Some e →
     (Remove l obj w).1 = Returned (None, Some (wrap c e)) ∧
     issued w (Remove l obj w).2 = (issue l (pre ++ [c]) (store w)).1 ∧
     store (Remove l obj w).2 = (issue l (pre ++ [c]) (store w)).2) ∧
  ((issued w (Updated l obj w).2).*1 `prefix_of`
     policyUpdates obj (heap w) (policyLookup l obj w).1 ∧
   issued w (Updated l obj w).2 =
     (issue l (issued w (Updated l obj w).2).*1 (store w)).1 ∧
   store (Updated l obj w).2 =
     (issue l (issued w (Updated l obj w).2).*1 (store w)).2) ∧
  ((issued w (Remove l obj w).2).*1 `prefix_of`
     policyDeletions (heap w) (policyLookup l obj w).1 ++
     clusterRoleDeletions (heap w) (clusterRoleLookup l obj w).1 ∧
   issued w (Remove l obj w).2 =
     (issue l (issued w (Remove l obj w).2).*1 (store w)).1 ∧
   store (Remove l obj w).2 =
     (issue l (issued w (Remove l obj w).2).*1 (store w)).2) ∧
  (∀ t, (Updated l obj w).1 = Returned (t, None) →
     (policyLookup l obj w).2 = None ∧ succeeded (issued w (Updated l obj w).2)) ∧
  (∀ t, (Remove l obj w).1 = Returned (t, None) →
     (policyLookup l obj w).2 = None ∧ (clusterRoleLookup l obj w).2 = None ∧
     succeeded (issued w (Remove l obj w).2)).
Proof.
  unfold policyLookup, clusterRoleLookup.
  destruct (ByIndex (policyIndexer l) (heap w) policyByPSPTParentAnnotationIndex
              (Name (templateMeta obj))) as [praws ep] eqn:Hp.
  destruct (ByIndex (clusterRoleIndexer l) (heap w) clusterRoleByPSPTNameIndex
              (Name (templateMeta obj))) as [rraws er] eqn:Hr.
  cbn [fst snd].
  pose proof (Updated_issued l obj w) as HU. rewrite Hp in HU.
  pose proof (Remove_issued l obj w) as HR. rewrite Hp, Hr in HR.
  destruct HU as (HU1 & HU2 & HU3). destruct HR as (HR1 & HR2 & HR3).
  split_and!; try done.
  - intros e ->. by rewrite Updated_unfold, Remove_unfold, Hp.
  - intros e -> ->.
    destruct (Remove l obj w) as [r w'] eqn:Hrun. cbn [fst snd].
    destruct (Remove_ran_policies l obj w praws e r w' Hp) as (r0 & Hran & ->);
      [by rewrite Hr | done |].
    split; [by apply ran_issued in Hran as [? _]|].
    destruct r0 as [[m|]|msg].
    + right. left. apply ran_failed in Hran as (c & e' & Hlast & ->). eauto.
    + left. split; [done|]. by eapply ran_completed_succeeded.
    + right. right. by eexists.
  - apply Updated_failure.
  - apply Remove_failure.
  - intros pre c post e -> Hwr Hplan Hok He.
    destruct (Updated_returns l obj w) as [r Hret]; [by rewrite Hp|].
    destruct (Updated l obj w) as [r' w'] eqn:Hrun. cbn [fst snd] in *. subst r'.
    destruct (Updated_ran _ _ _ _ _ _ Hp Hrun) as (r0 & Hran & Hfin).
    rewrite Hplan in Hran.
    destruct (ran_kth _ _ _ _ _ _ _ _ Hran Hok He) as [[msg ->]|(-> & ? & ?)];
      [done|]. by rewrite Hfin.
  - intros pre c post e -> -> Htp Htr Hplan Hok He.
    destruct (Remove_returns _ _ _ _ _ Hp Hr Htp Htr) as [r Hret].
    destruct (Remove l obj w) as [r' w'] eqn:Hrun. cbn [fst snd] in *. subst r'.
    destruct (Remove_ran _ _ _ _ _ _ _ Hp Hr Hrun) as (r0 & Hran & Hfin).
    rewrite Hplan in Hran.
    destruct (ran_kth _ _ _ _ _ _ _ _ Hran Hok He) as [[msg ->]|(-> & ? & ?)];
      [done|]. by rewrite Hfin.
  - intros t Hret. destruct ep as [e|].
    { rewrite Updated_unfold, Hp in Hret. done. }
    split; [done|].
    destruct (Updated l obj w) as [r w'] eqn:Hrun. cbn [fst snd] in *. subst r.
    destruct (Updated_ran _ _ _ _ _ _ Hp Hrun) as (r0 & Hran & Hfin).
    destruct r0 as [[m|]|msg]; try done. by eapply ran_completed_succeeded.
  - intros t Hret. destruct ep as [e|].
    { rewrite Remove_unfold, Hp in Hret. done. }
    destruct (Remove l obj w) as [r w'] eqn:Hrun. cbn [fst snd] in *. subst r.
    destruct er as [e|].
    { destruct (Remove_ran_policies l obj w praws e _ w' Hp ltac:(by rewrite Hr) Hrun)
        as (r0 & Hran & Hfin).
      by destruct r0 as [[m|]|msg]. }
    split_and!; try done.
    destruct (Remove_ran _ _ _ _ _ _ _ Hp Hr Hrun) as (r0 & Hran & Hfin).
    destruct r0 as [[m|]|msg]; try done. by eapply ran_completed_succeeded.
Qed.

End Failures.

(** * The handlers on the small cluster *)

#[local] Existing Instance Fixture.package.
#[local] Existing Instance Fixture.server.

Lemma fakeUpdate_stores (p : PodSecurityPolicy) (s s' : Fixture.Apiserver) :
  Update Fixture.fakePolicies p s = (None, s') →
  Fixture.serverPolicies s' !! Name (policyMeta p) = Some p ∧
  ∀ n, n ≠ Name (policyMeta p) →
       Fixture.serverPolicies s' !! n = Fixture.serverPolicies s !! n.
Proof.
  cbn. unfold Fixture.fakeUpdate.
  destruct (Fixture.serverPolicies s !! _); [|done].
  intros [= <-]. cbn. split; [by rewrite lookup_insert_eq|].
  intros n Hn. by rewrite lookup_insert_ne.
Qed.

(** C1 on the cluster: [p1], synced from version 4, is written back with the
    spec and the version of [t1]; [p2], already at version 5, is not. *)
Lemma Updated_propagates_template_witness :
  policyLookup Fixture.lifecycle Fixture.t1 Fixture.world = ([0; 1], None) ∧
  (Updated Fixture.lifecycle Fixture.t1 Fixture.world).1
    = Returned (Some Fixture.t1, None) ∧
  issued Fixture.world (Updated Fixture.lifecycle Fixture.t1 Fixture.world).2
    = [(CallUpdate (synced Fixture.t1 Fixture.p1), None)] ∧
  ∃ q, Fixture.serverPolicies
         (store (Updated Fixture.lifecycle Fixture.t1 Fixture.world).2) !! "p1"
       = Some q ∧
       policySpec q = Fixture.mkSpec false ∧ sourceVersion q = "5".
Proof.
  assert (Hfound : policyLookup Fixture.lifecycle Fixture.t1 Fixture.world
                   = ([0; 1], None)) by (vm_compute; reflexivity).
  destruct (Updated_propagates_template Fixture.lifecycle Fixture.t1 Fixture.world
              [0; 1] Hfound) as (Hmem & Hdone & Hlive).
  assert (Hrun : Updated Fixture.lifecycle Fixture.t1 Fixture.world =
                 (Returned (Some Fixture.t1, None),
                  (Updated Fixture.lifecycle Fixture.t1 Fixture.world).2))
    by (vm_compute; reflexivity).
  destruct (Hdone _ _ Hrun) as (_ & Hev & _ & Hget).
  split_and!.
  - exact Hfound.
  - apply Hlive.
    + repeat constructor; eexists; (split; [vm_compute; reflexivity|]);
        intros _; vm_compute; eauto.
    + unfold succeeded. vm_compute. repeat constructor.
  - rewrite Hev. vm_compute. reflexivity.
  - apply (Hget (λ s n, Fixture.serverPolicies s !! n) fakeUpdate_stores Fixture.p1).
    apply Hmem. split.
    + intros Heq. vm_compute in Heq. discriminate.
    + exists 0. split; [left|reflexivity].
Defined.

(** C2 on the cluster: after [Updated] has written [p1] and the informer has
    heard of it, a second [Updated] with [t1] issues no call. *)
Lemma Updated_skips_synced_policies_witness :
  Updated Fixture.lifecycle Fixture.t1 Fixture.world =
    (Returned (Some Fixture.t1, None),
     (Updated Fixture.lifecycle Fixture.t1 Fixture.world).2) ∧
  let w1 := (Updated Fixture.lifecycle Fixture.t1 Fixture.world).2 in
  let hi := deliver (issued Fixture.world w1)
              (heap w1, PodSecurityPoliciesInformer Fixture.context) in
  let context2 := {| PodSecurityPolicies := PodSecurityPolicies Fixture.context;
                     PodSecurityPoliciesInformer := hi.2;
                     ClusterRoles := ClusterRoles Fixture.context;
                     ClusterRolesInformer := ClusterRolesInformer Fixture.context |} in
  let w2 := {| heap := hi.1; store := store w1; calls := calls w1 |} in
  Updated (RegisterTemplate context2) Fixture.t1 w2 =
    (Returned (Some Fixture.t1, None), w2).
Proof.
  assert (Hrun : Updated Fixture.lifecycle Fixture.t1 Fixture.world =
                 (Returned (Some Fixture.t1, None),
                  (Updated Fixture.lifecycle Fixture.t1 Fixture.world).2))
    by (vm_compute; reflexivity).
  split; [exact Hrun|].
  destruct (Updated_skips_synced_policies Fixture.lifecycle Fixture.t1 Fixture.world
              Fixture.context (Updated Fixture.lifecycle Fixture.t1 Fixture.world).2)
    as (_ & _ & _ & Hsecond).
  exact (Hsecond Hrun).
Defined.

(** C2, as the spec has it, fails: on the cluster, [Updated] with [t1]
    succeeds and writes [p1]; called again at once, on the world the first
    call has left and with the same template, it finds in the informer's
    store the [p1] it found before, whose annotation still reads "4", and
    sends the same write a second time. *)
Lemma Updated_twice_repeats_the_write :
  let w1 := (Updated Fixture.lifecycle Fixture.t1 Fixture.world).2 in
  (Updated Fixture.lifecycle Fixture.t1 Fixture.world).1
    = Returned (Some Fixture.t1, None) ∧
  issued Fixture.world w1 = [(CallUpdate (synced Fixture.t1 Fixture.p1), None)] ∧
  policyAt (heap w1) 0 = Some Fixture.p1 ∧
  sourceVersion Fixture.p1 = "4" ∧
  ResourceVersion (templateMeta Fixture.t1) = "5" ∧
  (Updated Fixture.lifecycle Fixture.t1 w1).1 = Returned (Some Fixture.t1, None) ∧
  issued w1 (Updated Fixture.lifecycle Fixture.t1 w1).2
    = [(CallUpdate (synced Fixture.t1 Fixture.p1), None)] ∧
  issued w1 (Updated Fixture.lifecycle Fixture.t1 w1).2 ≠ [].
Proof.
  cbn zeta. split_and!; try (vm_compute; reflexivity).
  vm_compute. discriminate.
Qed.


(** C6 on the cluster: the deletion of [r1] is the third call, after the
    deletions of both policies. *)
Lemma Remove_policies_before_roles_witness :
  issued Fixture.world (Remove Fixture.lifecycle Fixture.t1 Fixture.world).2 !! 2
    = Some (CallDeleteNamespaced "" "r1", None) ∧
  take (length (policyLookup Fixture.lifecycle Fixture.t1 Fixture.world).1)
       (issued Fixture.world (Remove Fixture.lifecycle Fixture.t1 Fixture.world).2)
    = (λ c, (c, None)) <$>
        policyDeletions (heap Fixture.world)
          (policyLookup Fixture.lifecycle Fixture.t1 Fixture.world).1 ∧
  length (policyLookup Fixture.lifecycle Fixture.t1 Fixture.world).1 ≤ 2.
Proof.
  assert (Hi : issued Fixture.world
                 (Remove Fixture.lifecycle Fixture.t1 Fixture.world).2 !! 2
               = Some (CallDeleteNamespaced "" "r1", None))
    by (vm_compute; reflexivity).
  split; [exact Hi|].
  destruct (Remove_policies_before_roles Fixture.lifecycle Fixture.t1 Fixture.world
              2 "" "r1" None Hi) as (_ & Htake & Hle).
  split; [exact Htake | exact Hle].
Defined.

(** C7 on the cluster where [p1] is already gone from the server while the
    informer still lists it: the delete of [p1] reports that it does not
    exist, and that report ends the invocation. *)
Lemma Remove_aborts_on_any_delete_error_witness :
  issued Fixture.worldWithoutP1
    (Remove Fixture.lifecycle Fixture.t1 Fixture.worldWithoutP1).2 !! 0
    = Some (CallDelete "p1", Some "not found: p1") ∧
  (Remove Fixture.lifecycle Fixture.t1 Fixture.worldWithoutP1).1
    = Returned (None, Some (wrap (CallDelete "p1") "not found: p1")) ∧
  1 = length (issued Fixture.worldWithoutP1
                (Remove Fixture.lifecycle Fixture.t1 Fixture.worldWithoutP1).2).
Proof.
  assert (Hi : issued Fixture.worldWithoutP1
                 (Remove Fixture.lifecycle Fixture.t1 Fixture.worldWithoutP1).2 !! 0
               = Some (CallDelete "p1", Some "not found: p1"))
    by (vm_compute; reflexivity).
  split; [exact Hi|].
  destruct (Remove_aborts_on_any_delete_error Fixture.lifecycle Fixture.t1
              Fixture.worldWithoutP1 0 (CallDelete "p1") "not found: p1" Hi)
    as (Hret & Hlen & _).
  split; [exact Hret | exact Hlen].
Defined.

(** C7, as the spec has it, fails.  On that cluster the delete of [p1]
    reports that [p1] does not exist; [Remove] does not go on: it returns the
    report as an error, and neither [p2] nor [r1], which the lookups listed as
    well, is deleted. *)
Lemma Remove_stops_at_a_missing_policy :
  let w := Fixture.worldWithoutP1 in
  let w' := (Remove Fixture.lifecycle Fixture.t1 w).2 in
  Delete Fixture.fakePolicies "p1" (store w) = (Some "not found: p1", store w) ∧
  (Remove Fixture.lifecycle Fixture.t1 w).1
    = Returned (None, Some "error deleting policy: not found: p1") ∧
  issued w w' = [(CallDelete "p1", Some "not found: p1")] ∧
  policyLookup Fixture.lifecycle Fixture.t1 w = ([0; 1], None) ∧
  clusterRoleLookup Fixture.lifecycle Fixture.t1 w = ([4], None) ∧
  Fixture.serverPolicies (store w') !! "p2" = Some Fixture.p2 ∧
  Fixture.serverClusterRoles (store w') !! ("", "r1") = Some Fixture.r1.
Proof. cbn zeta. split_and!; vm_compute; reflexivity. Qed.

(** C8 on the cluster where [p2] is gone from the server: the second of the
    three deletions fails; [p1] stays deleted, the error is returned and [r1]
    is not touched. *)
Lemma failures_abort_and_surface_witness :
  (Remove Fixture.lifecycle Fixture.t1 Fixture.worldWithoutP2).1
    = Returned (None, Some "error deleting policy: not found: p2") ∧
  issued Fixture.worldWithoutP2
    (Remove Fixture.lifecycle Fixture.t1 Fixture.worldWithoutP2).2
    = [(CallDelete "p1", None); (CallDelete "p2", Some "not found: p2")] ∧
  Fixture.serverPolicies
    (store (Remove Fixture.lifecycle Fixture.t1 Fixture.worldWithoutP2).2) !! "p1"
    = None ∧
  Fixture.serverClusterRoles
    (store (Remove Fixture.lifecycle Fixture.t1 Fixture.worldWithoutP2).2) !! ("", "r1")
    = Some Fixture.r1.
Proof.
  destruct (failures_abort_and_surface Fixture.lifecycle Fixture.t1
              Fixture.worldWithoutP2) as (_ & _ & _ & _ & _ & Hkth & _).
  destruct (Hkth [CallDelete "p1"] (CallDelete "p2")
              [CallDeleteNamespaced "" "r1"] "not found: p2")
    as (Hret & Hev & Hstore).
  - vm_compute; reflexivity.
  - vm_compute; reflexivity.
  - repeat constructor; eexists; vm_compute; reflexivity.
  - repeat constructor; eexists; vm_compute; reflexivity.
  - vm_compute; reflexivity.
  - unfold succeeded. vm_compute. repeat constructor.
  - vm_compute; reflexivity.
  - split_and!.
    + exact Hret.
    + rewrite Hev. vm_compute. reflexivity.
    + rewrite Hstore. vm_compute. reflexivity.
    + rewrite Hstore. vm_compute. reflexivity.
Defined.

(** C9 on the cluster: the policies listed for [t1] carry a parent annotation,
    and [Updated] returns. *)
Lemma Updated_annotation_write_defined_witness :
  (∀ a, a ∈ (policyLookup Fixture.lifecycle Fixture.t1 Fixture.world).1 →
        ∃ p, policyAt (heap Fixture.world) a = Some p ∧
             parentOf (policyMeta p) ≠ "") ∧
  ∃ r, (Updated Fixture.lifecycle Fixture.t1 Fixture.world).1 = Returned r.
Proof.
  destruct (Updated_annotation_write_defined Fixture.lifecycle Fixture.t1
              Fixture.world Fixture.context (heap Fixture.world)
              (Name (templateMeta Fixture.t1))) as [Hdefined Hindexed].
  split; [exact Hindexed|].
  exact (proj2 (Hdefined Hindexed)).
Defined.

(** C10 on the cluster: after [Updated], the informer's [p1] is what it was,
    and what was sent sits in a new cell. *)
Lemma Updated_leaves_cached_objects_witness :
  heap (Updated Fixture.lifecycle Fixture.t1 Fixture.world).2 !! 0
    = Some (ObjPolicy Fixture.p1) ∧
  ∃ a, length (heap Fixture.world) ≤ a ∧
       heap (Updated Fixture.lifecycle Fixture.t1 Fixture.world).2 !! a
       = Some (ObjPolicy (synced Fixture.t1 Fixture.p1)).
Proof.
  destruct (Updated_leaves_cached_objects Fixture.lifecycle Fixture.t1 Fixture.world)
    as [Hkept Hsent].
  split.
  - by apply Hkept.
  - apply (Hsent _ None). vm_compute. left.
Defined.

(** C5 on the cluster: [p1], whose parent is [t1], is listed under that key
    and under no other, the empty key included; [p4], which has no
    annotations, is listed under no key at all. *)
Lemma index_functions_keys_witness :
  0 ∈ (ByIndex (policyIndexer Fixture.lifecycle) Fixture.objects
         policyByPSPTParentAnnotationIndex "t1").1 ∧
  (0 ∉ (ByIndex (policyIndexer Fixture.lifecycle) Fixture.objects
          policyByPSPTParentAnnotationIndex "").1) ∧
  (0 ∉ (ByIndex (policyIndexer Fixture.lifecycle) Fixture.objects
          policyByPSPTParentAnnotationIndex "t2").1) ∧
  ∀ key, 3 ∉ (ByIndex (policyIndexer Fixture.lifecycle) Fixture.objects
                policyByPSPTParentAnnotationIndex key).1.
Proof.
  pose proof (λ a, proj2 (proj2 (proj2 (proj2 (proj2
    (index_functions_keys Fixture.objects a))))) Fixture.context) as Hidx.
  split_and!.
  - apply (Hidx 0 "t1"). split; [left|]. exists Fixture.p1.
    split_and!; [reflexivity | vm_compute; reflexivity | discriminate].
  - intros Hin. apply (Hidx 0 "") in Hin as (_ & p & _ & _ & Hne). done.
  - intros Hin. apply (Hidx 0 "t2") in Hin as (_ & p & Hp & Hparent & _).
    injection Hp as <-. vm_compute in Hparent. discriminate.
  - intros key Hin. apply (Hidx 3 key) in Hin as (_ & p & Hp & Hparent & Hne).
    injection Hp as <-. vm_compute in Hparent. by subst.
Defined.

(** * Further properties of the handlers *)

Section Footprint.
Context `{Package, Server}.
Implicit Types (l : Lifecycle) (obj : PodSecurityPolicyTemplate).
Implicit Types (w : World) (h : list Object) (raws : list ptr).

(** X1.  [Remove] writes to no object and allocates none: whatever its
    outcome (success, a lookup or delete error, a panic), the heap after the
    invocation is the heap before it. *)
Theorem Remove_leaves_the_heap l obj w : heap (Remove l obj w).2 = heap w.
Proof.
  rewrite Remove_unfold. cbn zeta.
  destruct (ByIndex (policyIndexer l) _ _ _) as [praws [e|]]; cbn [fst snd]; [done|].
  pose proof (deletePolicies_heap l praws w) as Hheap1.
  destruct (deletePolicies l praws w) as [[[m|]|msg] w1]; cbn [fst snd] in *;
    try done.
  destruct (ByIndex (clusterRoleIndexer l) _ _ _) as [rraws [e|]]; cbn [fst snd];
    [done|].
  by rewrite deleteClusterRoles_heap.
Qed.

(** X2.  What each handler asks of the API server.  [Create] issues no call.
    [Updated] issues update calls only: it never deletes.  [Remove] issues
    deletions only, of policies by name and of cluster roles by namespace and
    name: it never writes an object. *)
Theorem handlers_call_kinds l obj w :
  issued w (Create l obj w).2 = [] ∧
  (∀ c e, (c, e) ∈ issued w (Updated l obj w).2 → ∃ v, c = CallUpdate v) ∧
  (∀ c e, (c, e) ∈ issued w (Remove l obj w).2 →
     (∃ name, c = CallDelete name) ∨
     (∃ namespace name, c = CallDeleteNamespaced namespace name)).
Proof.
  split_and!.
  - apply issued_refl.
  - intros c e Hin. destruct (Updated_issued l obj w) as ([rest Hpre] & _ & _).
    assert (Hc : c ∈ (issued w (Updated l obj w).2).*1 ++ rest).
    { apply elem_of_app. left. apply list_elem_of_fmap. by exists (c, e). }
    rewrite <- Hpre in Hc. unfold policyUpdates in Hc.
    apply list_elem_of_fmap in Hc as (p & -> & _). by eexists.
  - intros c e Hin. destruct (Remove_issued l obj w) as ([rest Hpre] & _ & _).
    assert (Hc : c ∈ (issued w (Remove l obj w).2).*1 ++ rest).
    { apply elem_of_app. left. apply list_elem_of_fmap. by exists (c, e). }
    rewrite <- Hpre in Hc. apply elem_of_app in Hc as [Hc|Hc].
    + left. unfold policyDeletions in Hc.
      apply list_elem_of_fmap in Hc as (p & -> & _). by eexists.
    + right. unfold clusterRoleDeletions in Hc.
      apply list_elem_of_fmap in Hc as (r & -> & _). by do 2 eexists.
Qed.

Lemma length_omap_le {A B} (f : A → option B) (xs : list A) :
  length (omap f xs) ≤ length xs.
Proof.
  induction xs as [|x xs IH]; [done|]. cbn. destruct (f x); cbn; lia.
Qed.

(** X3.  An invocation issues a bounded number of calls: [Updated] at most
    one per object the policy lookup listed, [Remove] at most one per object
    its two lookups listed. *)
Theorem handlers_call_bounds l obj w :
  length (issued w (Updated l obj w).2) ≤ length (policyLookup l obj w).1 ∧
  length (issued w (Remove l obj w).2) ≤
    length (policyLookup l obj w).1 + length (clusterRoleLookup l obj w).1.
Proof.
  unfold policyLookup, clusterRoleLookup. split.
  - destruct (Updated_issued l obj w) as (Hpre%prefix_length & _ & _).
    rewrite length_fmap in Hpre. etrans; [done|].
    unfold policyUpdates, stalePolicies. rewrite length_fmap.
    etrans; [apply length_filter|]. apply length_omap_le.
  - destruct (Remove_issued l obj w) as (Hpre%prefix_length & _ & _).
    rewrite length_fmap in Hpre. etrans; [done|].
    unfold policyDeletions, clusterRoleDeletions.
    rewrite length_app, !length_fmap.
    pose proof (length_omap_le (policyAt (heap w))
      (ByIndex (policyIndexer l) (heap w) policyByPSPTParentAnnotationIndex
         (Name (templateMeta obj))).1).
    pose proof (length_omap_le (clusterRoleAt (heap w))
      (ByIndex (clusterRoleIndexer l) (heap w) clusterRoleByPSPTNameIndex
         (Name (templateMeta obj))).1).
    lia.
Qed.

End Footprint.

Section Stamps.
Context `{Package, Server}.
Implicit Types (l : Lifecycle) (obj : PodSecurityPolicyTemplate).
Implicit Types (w : World) (h : list Object) (raws : list ptr).

(** What the loop of [Updated] sends, whatever its outcome: the copy of a
    policy of the lookup that had to be written and whose annotation map is
    not nil. *)
Lemma updatePolicies_sent l obj h0 vs raws w r w' v e :
  heap w = h0 ++ (ObjPolicy <$> vs) →
  Forall (λ v, ¬ stale obj v) vs →
  updatePolicies l obj raws w = (r, w') →
  (CallUpdate v, e) ∈ issued w w' →
  ∃ p, p ∈ stalePolicies obj h0 raws ∧ is_Some (Annotations (policyMeta p)) ∧
       v = synced obj p.
Proof.
  revert vs w. induction raws as [|raw rest IH]; intros vs w Hh Hvs Hrun Hin.
  { injection Hrun as <- <-. rewrite issued_refl in Hin. by apply elem_of_nil in Hin. }
  rewrite updatePolicies_step in Hrun. setoid_rewrite stalePolicies_cons.
  destruct (policyAt (heap w) raw) as [p|] eqn:Hp; cycle 1.
  { injection Hrun as <- <-. rewrite issued_refl in Hin. by apply elem_of_nil in Hin. }
  destruct (policyAt h0 raw) as [p0|] eqn:Hp0; cycle 1.
  { rewrite Hh in Hp. apply policyAt_grown_new in Hp; [|done].
    pose proof (proj1 (Forall_forall _ _) Hvs _ Hp) as Hfresh.
    destruct (decide (stale obj p)); [done|]. by eapply IH. }
  rewrite Hh, (policyAt_grown_old _ _ _ _ Hp0) in Hp. injection Hp as ->.
  destruct (decide (stale obj p)) as [Hstale|Hfresh]; [|by eapply IH].
  destruct (Annotations (policyMeta p)) as [ann|] eqn:Hann; cycle 1.
  { injection Hrun as <- <-. unfold issued in Hin. cbn [calls] in Hin.
    rewrite drop_all in Hin. by apply elem_of_nil in Hin. }
  cbn zeta in Hrun.
  set (r1 := Update (policies l) (synced obj p) (store w)) in *.
  assert (Hfirst : calls (afterUpdate (synced obj p) r1 w) =
                   calls w ++ [(CallUpdate (synced obj p), r1.1)]) by done.
  assert (Hhere : ∃ p', p' ∈ p :: stalePolicies obj h0 rest ∧
                        is_Some (Annotations (policyMeta p')) ∧
                        synced obj p = synced obj p').
  { exists p. split_and!; [by left | by rewrite Hann | done]. }
  destruct r1.1 as [e'|] eqn:He.
  - injection Hrun as <- <-. rewrite (issued_app _ _ _ Hfirst) in Hin.
    apply list_elem_of_singleton in Hin. injection Hin as -> _. done.
  - assert (Hh' : heap (afterUpdate (synced obj p) r1 w) =
                  h0 ++ (ObjPolicy <$> (vs ++ [synced obj p]))).
    { unfold afterUpdate. cbn [heap]. by rewrite Hh, fmap_app, app_assoc. }
    assert (Hvs' : Forall (λ v, ¬ stale obj v) (vs ++ [synced obj p])).
    { apply Forall_app. split; [done|]. constructor; [|constructor].
      by eapply synced_fresh. }
    pose proof (updatePolicies_ran l obj h0 _ rest _ _ _ Hh' Hvs' Hrun)
      as (cs & _ & Hc & _).
    pose proof Hc as Hc'. rewrite Hfirst, <- app_assoc in Hc'.
    rewrite (issued_app _ _ _ Hc') in Hin.
    apply elem_of_cons in Hin as [Hin|Hin].
    + injection Hin as -> _. done.
    + destruct (IH _ _ Hh' Hvs' Hrun) as (p' & Hp' & Hann' & ->).
      { by rewrite (issued_app _ _ _ Hc). }
      exists p'. split_and!; [by right | done | done].
Qed.

Lemma Updated_sent l obj w v e :
  (CallUpdate v, e) ∈ issued w (Updated l obj w).2 →
  ∃ a p, a ∈ (policyLookup l obj w).1 ∧ policyAt (heap w) a = Some p ∧
         stale obj p ∧ is_Some (Annotations (policyMeta p)) ∧ v = synced obj p.
Proof.
  unfold policyLookup. rewrite Updated_unfold. cbn zeta.
  destruct (ByIndex _ _ _ _) as [raws [e'|]]; cbn [fst snd].
  { rewrite issued_refl. by intros ?%elem_of_nil. }
  destruct (updatePolicies l obj raws w) as [r w'] eqn:Hrun. cbn [snd]. intros Hin.
  destruct (updatePolicies_sent l obj (heap w) [] raws w r w' v e)
    as (p & Hp & Hann & ->); [by rewrite app_nil_r | done..|].
  apply elem_of_stalePolicies in Hp as (Hstale & a & Ha & Hp). eauto 10.
Qed.

(** X4.  The version stamp never lies.  Every object [Updated] sends to the
    server, in an invocation that succeeds, fails or panics alike, carries
    the template's spec together with the template's resource version as its
    source-version annotation; it is the copy of a looked-up policy whose
    stamp differed, and keeps that policy's name, namespace and resource
    version. *)
Theorem Updated_sends_stamped_specs l obj w v e :
  (CallUpdate v, e) ∈ issued w (Updated l obj w).2 →
  policySpec v = templateSpec obj ∧
  sourceVersion v = ResourceVersion (templateMeta obj) ∧
  ∃ a p, a ∈ (policyLookup l obj w).1 ∧ policyAt (heap w) a = Some p ∧
         sourceVersion p ≠ ResourceVersion (templateMeta obj) ∧
         Name (policyMeta v) = Name (policyMeta p) ∧
         Namespace (policyMeta v) = Namespace (policyMeta p) ∧
         ResourceVersion (policyMeta v) = ResourceVersion (policyMeta p).
Proof.
  intros (a & p & Ha & Hp & Hstale & Hann & ->)%Updated_sent.
  destruct (synced_fields obj p Hann) as (Hspec & Hver & Hname & Hns & Hrv & _).
  split_and!; try done. exists a, p. done.
Qed.

(** X5.  [Updated] keeps a policy attached to its template.  When the two
    annotation keys differ, every object [Updated] sends has the parent
    annotation of the policy it was copied from, and all its other
    annotations but the source version; so [policyByPSPTParentAnnotation]
    gives for it the keys it gave for the original, and the written policy
    stays in the index under the same template. *)
Theorem Updated_keeps_the_parent l obj w v e :
  podSecurityPolicyTemplateVersionAnnotation ≠
    podSecurityPolicyTemplateParentAnnotation →
  (CallUpdate v, e) ∈ issued w (Updated l obj w).2 →
  ∃ a p, a ∈ (policyLookup l obj w).1 ∧ policyAt (heap w) a = Some p ∧
         parentOf (policyMeta v) = parentOf (policyMeta p) ∧
         (∀ k, k ≠ podSecurityPolicyTemplateVersionAnnotation →
               mapIndex (Annotations (policyMeta v)) k =
               mapIndex (Annotations (policyMeta p)) k) ∧
         ∀ h' a', policyAt h' a' = Some v →
                  policyByPSPTParentAnnotation h' a' =
                  policyByPSPTParentAnnotation (heap w) a.
Proof.
  intros Hkeys (a & p & Ha & Hp & Hstale & Hann & ->)%Updated_sent.
  destruct (synced_fields obj p Hann) as (_ & _ & _ & _ & _ & Hother).
  assert (Hparent : parentOf (policyMeta (synced obj p)) = parentOf (policyMeta p)).
  { unfold parentOf. apply Hother. done. }
  exists a, p. split_and!; try done.
  intros h' a' Hv. unfold policyByPSPTParentAnnotation, policyAt in *.
  destruct (h' !! a') as [[v'|?|?]|]; try done. injection Hv as ->.
  destruct (heap w !! a) as [[p'|?|?]|]; try done. injection Hp as ->.
  unfold parentOf in Hparent. by rewrite Hparent.
Qed.

End Stamps.

Section Panics.
Context `{Package, Server}.
Implicit Types (l : Lifecycle) (obj : PodSecurityPolicyTemplate).
Implicit Types (w : World) (h : list Object) (raws : list ptr).

(** The loop of [Updated] over a list in two parts. *)
Lemma updatePolicies_app l obj raws1 raws2 w :
  updatePolicies l obj (raws1 ++ raws2) w =
  match updatePolicies l obj raws1 w with
  | (Returned None, w1) => updatePolicies l obj raws2 w1
  | stopped => stopped
  end.
Proof.
  revert w. induction raws1 as [|raw rest IH]; intros w; [done|].
  rewrite <- app_comm_cons, !updatePolicies_step.
  destruct (policyAt (heap w) raw) as [p|]; [|done].
  destruct (decide (stale obj p)); [|apply IH].
  destruct (Annotations (policyMeta p)); [|done]. cbn zeta.
  destruct (Update _ _ _).1; [done|apply IH].
Qed.

(** The loop over policies that can all be written, on a server that accepts
    the writes. *)
Lemma updatePolicies_completes l obj raws w :
  Forall (writable obj (heap w)) raws →
  succeeded (issue l (policyUpdates obj (heap w) raws) (store w)).1 →
  ∃ w1, updatePolicies l obj raws w = (Returned None, w1) ∧
        heap w1 = heap w ++ (ObjPolicy <$> (synced obj <$> stalePolicies obj (heap w) raws)) ∧
        calls w1 = calls w ++ (issue l (policyUpdates obj (heap w) raws) (store w)).1 ∧
        store w1 = (issue l (policyUpdates obj (heap w) raws) (store w)).2.
Proof.
  intros Hwr Hok.
  destruct (updatePolicies_returns l obj (heap w) [] raws w) as [e He];
    [by rewrite app_nil_r | done |].
  destruct (updatePolicies l obj raws w) as [r w1] eqn:Hrun. cbn [fst] in He. subst r.
  pose proof (updatePolicies_ran l obj (heap w) [] raws w _ _
                ltac:(by rewrite app_nil_r) (Forall_nil_2 _) Hrun) as Hran.
  destruct (ran_accepts _ _ _ _ _ Hran Hok) as [Hr|[msg Hr]]; [|done].
  injection Hr as ->. exists w1. split; [done|].
  split; [by eapply (updatePolicies_copies l obj (heap w) []);
            [by rewrite app_nil_r | done | done]|].
  destruct Hran as (cs & _ & Hc & Hs & -> & _). done.
Qed.

(** X6.  When [Updated] panics.  Let the lookup list, after policies that can
    be written and whose writes the server accepts, an object [a] that
    [Updated] cannot handle.  If [a] is not a policy, the type assertion
    panics.  If [a] is a policy whose annotation map is nil and the template
    has a resource version, the write to the nil map panics.  In both cases
    the writes for the policies before [a] have been made and stay, and
    nothing after [a] is looked at. *)
Theorem Updated_panics_on_unwritable l obj w pre a post :
  policyLookup l obj w = (pre ++ a :: post, None) →
  Forall (writable obj (heap w)) pre →
  succeeded (issue l (policyUpdates obj (heap w) pre) (store w)).1 →
  (is_Some (heap w !! a) → policyAt (heap w) a = None →
     (Updated l obj w).1 =
       Panicked "interface conversion: not *v1beta1.PodSecurityPolicy") ∧
  (∀ p, policyAt (heap w) a = Some p → Annotations (policyMeta p) = None →
     ResourceVersion (templateMeta obj) ≠ "" →
     (Updated l obj w).1 = Panicked "assignment to entry in nil map") ∧
  ((is_Some (heap w !! a) ∧ policyAt (heap w) a = None ∨
    ∃ p, policyAt (heap w) a = Some p ∧ Annotations (policyMeta p) = None ∧
         ResourceVersion (templateMeta obj) ≠ "") →
   issued w (Updated l obj w).2 = (issue l (policyUpdates obj (heap w) pre) (store w)).1 ∧
   store (Updated l obj w).2 = (issue l (policyUpdates obj (heap w) pre) (store w)).2).
Proof.
  unfold policyLookup. intros Hfound Hwr Hok.
  destruct (updatePolicies_completes l obj pre w Hwr Hok)
    as (w1 & Hpre & Hheap & Hcalls & Hstore).
  rewrite Updated_unfold, Hfound. cbn [fst snd]. cbn zeta.
  rewrite updatePolicies_app, Hpre, updatePolicies_step.
  assert (Hother : is_Some (heap w !! a) → policyAt (heap w) a = None →
                   policyAt (heap w1) a = None).
  { intros [o Ho] Hnone. unfold policyAt in *. rewrite Hheap.
    rewrite (lookup_app_l_Some _ _ _ _ Ho). by rewrite Ho in Hnone. }
  assert (Hnil : ∀ p, policyAt (heap w) a = Some p →
                      Annotations (policyMeta p) = None →
                      ResourceVersion (templateMeta obj) ≠ "" →
                      policyAt (heap w1) a = Some p ∧ stale obj p).
  { intros p Hp Hann Hrv. split.
    - rewrite Hheap. by apply policyAt_grown_old.
    - unfold stale, sourceVersion. rewrite Hann. cbn. done. }
  split_and!.
  - intros Hsome Hnone. by rewrite (Hother Hsome Hnone).
  - intros p Hp Hann Hrv. destruct (Hnil p Hp Hann Hrv) as [-> Hstale].
    destruct (decide (stale obj p)); [|done]. by rewrite Hann.
  - intros [[Hsome Hnone]|(p & Hp & Hann & Hrv)].
    + rewrite (Hother Hsome Hnone). cbn [fst snd].
      by rewrite (issued_app _ _ _ Hcalls).
    + destruct (Hnil p Hp Hann Hrv) as [-> Hstale].
      destruct (decide (stale obj p)); [|done]. rewrite Hann. cbn [fst snd calls store].
      split; [|done]. unfold issued. cbn [calls]. rewrite Hcalls.
      apply drop_app_length.
Qed.

End Panics.

Section Wiring.
Context `{Package, Server}.
Implicit Types (l : Lifecycle) (obj : PodSecurityPolicyTemplate).
Implicit Types (w : World) (h : list Object) (raws : list ptr).

(** X7.  [Remove] does not panic on indexed objects.  When the objects the
    two lookups list are a policy, respectively a cluster role, each type
    assertion of [Remove] holds and the invocation returns a result, be it the
    template or an error.  The indices [RegisterTemplate] builds list only
    such objects, under every key and for every content of the informers'
    stores, because each index function gives no key for an object of another
    type. *)
Theorem Remove_returns_on_indexed_objects l obj w (context : UserContext) h key :
  (Forall (λ a, is_Some (policyAt (heap w) a)) (policyLookup l obj w).1 →
   Forall (λ a, is_Some (clusterRoleAt (heap w) a)) (clusterRoleLookup l obj w).1 →
   ∃ r, (Remove l obj w).1 = Returned r) ∧
  Forall (λ a, is_Some (policyAt h a))
    (ByIndex (policyIndexer (RegisterTemplate context)) h
       policyByPSPTParentAnnotationIndex key).1 ∧
  Forall (λ a, is_Some (clusterRoleAt h a))
    (ByIndex (clusterRoleIndexer (RegisterTemplate context)) h
       clusterRoleByPSPTNameIndex key).1.
Proof.
  split_and!.
  - unfold policyLookup, clusterRoleLookup. intros Htp Htr.
    rewrite Remove_unfold. cbn zeta.
    destruct (ByIndex (policyIndexer l) _ _ _) as [praws [e|]]; cbn [fst snd] in *;
      [by eexists|].
    destruct (deletePolicies_returns l praws w Htp) as [e He].
    pose proof (deletePolicies_heap l praws w) as Hheap.
    rewrite He. destruct e as [m|]; [by eexists|].
    destruct (ByIndex (clusterRoleIndexer l) _ _ _) as [rraws [e|]];
      cbn [fst snd] in *; [by eexists|].
    rewrite <- Hheap in Htr.
    destruct (deleteClusterRoles_returns l rraws _ Htr) as [e' He'].
    rewrite He'. destruct e'; by eexists.
  - rewrite RegisterTemplate_policy_lookup. cbn [fst]. apply Forall_forall.
    intros a [Hkey _]%list_elem_of_filter.
    apply policy_key_elem in Hkey as (p & -> & _). by eexists.
  - rewrite RegisterTemplate_clusterRole_lookup. cbn [fst]. apply Forall_forall.
    intros a [Hkey _]%list_elem_of_filter.
    apply clusterRole_key_elem in Hkey as (r & -> & _). by eexists.
Qed.

Lemma synced_ext obj1 obj2 p :
  ResourceVersion (templateMeta obj1) = ResourceVersion (templateMeta obj2) →
  templateSpec obj1 = templateSpec obj2 →
  synced obj1 p = synced obj2 p.
Proof. unfold synced. by intros -> ->. Qed.

Lemma updatePolicies_ext l obj1 obj2 raws w :
  ResourceVersion (templateMeta obj1) = ResourceVersion (templateMeta obj2) →
  templateSpec obj1 = templateSpec obj2 →
  updatePolicies l obj1 raws w = updatePolicies l obj2 raws w.
Proof.
  intros Hrv Hspec. revert w. induction raws as [|raw rest IH]; intros w; [done|].
  rewrite !updatePolicies_step.
  destruct (policyAt (heap w) raw) as [p|]; [|done].
  rewrite (synced_ext obj1 obj2 p Hrv Hspec).
  destruct (decide (stale obj1 p)) as [H1|H1], (decide (stale obj2 p)) as [H2|H2].
  - rewrite Hspec. destruct (Annotations (policyMeta p)); [|done]. cbn zeta.
    destruct (Update _ _ _).1; [done|apply IH].
  - destruct H2. unfold stale in *. by rewrite <- Hrv.
  - destruct H1. unfold stale in *. by rewrite Hrv.
  - apply IH.
Qed.

(** X8.  What the handlers read of the template.  [Remove] reads its name
    only: for two templates of one name it issues the same calls and leaves
    the same world, and returns the same error or, on success, the template it
    was given.  [Updated] reads the name, the resource version and the spec
    only. *)
Theorem handlers_read_of_the_template l obj1 obj2 w :
  Name (templateMeta obj1) = Name (templateMeta obj2) →
  (∃ r0 w', Remove l obj1 w = (finish obj1 r0, w') ∧
            Remove l obj2 w = (finish obj2 r0, w')) ∧
  (ResourceVersion (templateMeta obj1) = ResourceVersion (templateMeta obj2) →
   templateSpec obj1 = templateSpec obj2 →
   ∃ r0 w', Updated l obj1 w = (finish obj1 r0, w') ∧
            Updated l obj2 w = (finish obj2 r0, w')).
Proof.
  intros Hname. split.
  - rewrite !Remove_unfold, <- Hname. cbn zeta.
    destruct (ByIndex (policyIndexer l) _ _ _) as [praws [e|]]; cbn [fst snd].
    { by exists (Returned (Some ("error getting policies: " +:+ e))), w. }
    destruct (deletePolicies l praws w) as [r1 w1]. cbn [fst snd].
    destruct r1 as [[m|]|msg]; [by exists (Returned (Some m)), w1| |
                                 by exists (Panicked msg), w1].
    destruct (ByIndex (clusterRoleIndexer l) _ _ _) as [rraws [e|]]; cbn [fst snd].
    { by exists (Returned (Some ("error getting cluster roles: " +:+ e))), w1. }
    by eexists _, _.
  - intros Hrv Hspec. rewrite !Updated_unfold, <- Hname. cbn zeta.
    destruct (ByIndex (policyIndexer l) _ _ _) as [praws [e|]]; cbn [fst snd].
    { by exists (Returned (Some ("error getting policies: " +:+ e))), w. }
    rewrite (updatePolicies_ext l obj1 obj2 praws w Hrv Hspec). by eexists _, _.
Qed.

Lemma filter_ext_in {A} (P Q : A → Prop) `{!∀ x, Decision (P x)}
    `{!∀ x, Decision (Q x)} (xs : list A) :
  Forall (λ x, P x ↔ Q x) xs → filter P xs = filter Q xs.
Proof.
  induction 1 as [|x xs HPQ _ IH]; [done|].
  rewrite !filter_cons, IH.
  destruct (decide (P x)), (decide (Q x)); tauto.
Qed.

Lemma omap_ext_in {A B} (f g : A → option B) (xs : list A) :
  Forall (λ x, f x = g x) xs → omap f xs = omap g xs.
Proof. induction 1 as [|x xs Hfg _ IH]; [done|]. cbn. by rewrite Hfg, IH. Qed.

(** X9.  [Updated] changes neither what the indices list nor what a later
    invocation would do with it.  For informers whose stores hold allocated
    objects, every lookup in the indices [RegisterTemplate] builds answers
    after an invocation of [Updated], by any lifecycle, with any template and
    whatever its outcome, what it answered before; and the deletions a
    [Remove] plans for the objects it lists, like the writes an [Updated]
    plans for them with any template, are the same: until the informer hears
    of the writes, a retry sends the very same objects again. *)
Theorem Updated_keeps_the_indices l obj w (context : UserContext) key obj' :
  Forall (λ a, a < length (heap w))
    (informerStore (PodSecurityPoliciesInformer context)) →
  Forall (λ a, a < length (heap w))
    (informerStore (ClusterRolesInformer context)) →
  let h' := heap (Updated l obj w).2 in
  let praws := (ByIndex (policyIndexer (RegisterTemplate context)) (heap w)
                  policyByPSPTParentAnnotationIndex key).1 in
  let rraws := (ByIndex (clusterRoleIndexer (RegisterTemplate context)) (heap w)
                  clusterRoleByPSPTNameIndex key).1 in
  ByIndex (policyIndexer (RegisterTemplate context)) h'
    policyByPSPTParentAnnotationIndex key = (praws, None) ∧
  ByIndex (clusterRoleIndexer (RegisterTemplate context)) h'
    clusterRoleByPSPTNameIndex key = (rraws, None) ∧
  policyDeletions h' praws = policyDeletions (heap w) praws ∧
  clusterRoleDeletions h' rraws = clusterRoleDeletions (heap w) rraws ∧
  policyUpdates obj' h' praws = policyUpdates obj' (heap w) praws.
Proof.
  intros Hps Hrs. cbn zeta.
  destruct (Updated_heap l obj w) as (vs & Hheap & _). rewrite Hheap.
  assert (Hcell : ∀ a : ptr, a < length (heap w) →
                       (heap w ++ (ObjPolicy <$> vs)) !! a = heap w !! a).
  { intros a Ha. by apply lookup_app_l. }
  rewrite !RegisterTemplate_policy_lookup, !RegisterTemplate_clusterRole_lookup.
  cbn [fst].
  assert (Hp : filter (λ a, key ∈ (policyByPSPTParentAnnotation
                                     (heap w ++ (ObjPolicy <$> vs)) a).1)
                 (informerStore (PodSecurityPoliciesInformer context)) =
               filter (λ a, key ∈ (policyByPSPTParentAnnotation (heap w) a).1)
                 (informerStore (PodSecurityPoliciesInformer context))).
  { apply filter_ext_in. eapply Forall_impl; [exact Hps|]. intros a Ha. cbn beta.
    unfold policyByPSPTParentAnnotation. cbn beta. by rewrite (Hcell a Ha). }
  assert (Hr : filter (λ a, key ∈ (clusterRoleByPSPTName
                                     (heap w ++ (ObjPolicy <$> vs)) a).1)
                 (informerStore (ClusterRolesInformer context)) =
               filter (λ a, key ∈ (clusterRoleByPSPTName (heap w) a).1)
                 (informerStore (ClusterRolesInformer context))).
  { apply filter_ext_in. eapply Forall_impl; [exact Hrs|]. intros a Ha. cbn beta.
    unfold clusterRoleByPSPTName. cbn beta. by rewrite (Hcell a Ha). }
  rewrite Hp, Hr. split_and!; try done.
  - unfold policyDeletions. f_equal. apply omap_ext_in, Forall_forall.
    intros a [_ Ha]%list_elem_of_filter.
    unfold policyAt. rewrite Hcell; [done|].
    by apply (proj1 (Forall_forall _ _) Hps).
  - unfold clusterRoleDeletions. f_equal. apply omap_ext_in, Forall_forall.
    intros a [_ Ha]%list_elem_of_filter.
    unfold clusterRoleAt. rewrite Hcell; [done|].
    by apply (proj1 (Forall_forall _ _) Hrs).
  - unfold policyUpdates, stalePolicies. do 2 f_equal.
    apply omap_ext_in, Forall_forall.
    intros a [_ Ha]%list_elem_of_filter.
    unfold policyAt. rewrite Hcell; [done|].
    by apply (proj1 (Forall_forall _ _) Hps).
Qed.

End Wiring.

Section Retry.
Context `{Package, Server}.
Implicit Types (l : Lifecycle) (obj : PodSecurityPolicyTemplate).
Implicit Types (w : World) (h : list Object) (raws : list ptr).

(** A server on which a deleted policy stays away while only deletions are
    made, seen through a predicate [gone] on its states, and the two clients
    that reach it. *)
Variable client : PodSecurityPolicyInterface.
Variable roleClient : ClusterRoleInterface.
Variable gone : Store → string → Prop.
Hypothesis Delete_keeps_gone : ∀ n m s,
  gone s n → gone (Delete client m s).2 n.
Hypothesis DeleteNamespaced_keeps_gone : ∀ n namespace m s,
  gone s n → gone (DeleteNamespaced roleClient namespace m s).2 n.

Lemma deletePolicies_keeps_gone l raws w n :
  policies l = client →
  gone (store w) n → gone (store (deletePolicies l raws w).2) n.
Proof.
  intros Hl. revert w. induction raws as [|raw rest IH]; intros w Hn; [done|].
  rewrite deletePolicies_step. destruct (policyAt (heap w) raw) as [p|]; [|done].
  cbn zeta.
  assert (Hn' : gone (store (record (CallDelete (Name (policyMeta p)))
                               (exec l (CallDelete (Name (policyMeta p))) (store w)) w)) n).
  { cbn. rewrite Hl. by apply Delete_keeps_gone. }
  destruct (exec l _ (store w)).1; [done|]. by apply IH.
Qed.

Lemma deleteClusterRoles_keeps_gone l raws w n :
  clusterRoles l = roleClient →
  gone (store w) n → gone (store (deleteClusterRoles l raws w).2) n.
Proof.
  intros Hl. revert w. induction raws as [|raw rest IH]; intros w Hn; [done|].
  rewrite deleteClusterRoles_step.
  destruct (clusterRoleAt (heap w) raw) as [r|]; [|done]. cbn zeta.
  assert (Hn' : gone (store (record
      (CallDeleteNamespaced (Namespace (roleMeta r)) (Name (roleMeta r)))
      (exec l (CallDeleteNamespaced (Namespace (roleMeta r)) (Name (roleMeta r)))
         (store w)) w)) n).
  { cbn. rewrite Hl. by apply DeleteNamespaced_keeps_gone. }
  destruct (exec l _ (store w)).1; [done|]. by apply IH.
Qed.

Lemma Remove_keeps_gone l obj w n :
  policies l = client → clusterRoles l = roleClient →
  gone (store w) n → gone (store (Remove l obj w).2) n.
Proof.
  intros Hl Hr Hn. rewrite Remove_unfold. cbn zeta.
  destruct (ByIndex (policyIndexer l) _ _ _) as [praws [e|]]; cbn [fst snd]; [done|].
  pose proof (deletePolicies_keeps_gone l praws w n Hl Hn) as Hn1.
  destruct (deletePolicies l praws w) as [[[m|]|msg] w1]; cbn [fst snd] in *;
    try done.
  destruct (ByIndex (clusterRoleIndexer l) _ _ _) as [rraws [e|]]; cbn [fst snd];
    [done|].
  by apply deleteClusterRoles_keeps_gone.
Qed.

Lemma Removes_keep_gone (invs : list (Lifecycle * PodSecurityPolicyTemplate)) w n :
  Forall (λ i, policies i.1 = client ∧ clusterRoles i.1 = roleClient) invs →
  gone (store w) n →
  gone (store (foldl (λ w0 i, (Remove i.1 i.2 w0).2) w invs)) n.
Proof.
  intros Hinvs. revert w.
  induction Hinvs as [|[l obj] invs [Hl Hr] _ IH]; intros w Hn; [done|].
  cbn [foldl fst snd]. apply IH. by apply Remove_keeps_gone.
Qed.

(** The policy loop does not get past a listed policy that is gone. *)
Lemma deletePolicies_stuck l pre a post w p :
  policies l = client →
  (∀ n s, gone s n → is_Some (Delete client n s).1) →
  policyAt (heap w) a = Some p →
  gone (store w) (Name (policyMeta p)) →
  ∃ evs,
    calls (deletePolicies l (pre ++ a :: post) w).2 = calls w ++ evs ∧
    evs.*1 `prefix_of` policyDeletions (heap w) (pre ++ [a]) ∧
    ((∃ e, (deletePolicies l (pre ++ a :: post) w).1
             = Returned (Some ("error deleting policy: " +:+ e))) ∨
     (∃ msg, (deletePolicies l (pre ++ a :: post) w).1 = Panicked msg)).
Proof.
  intros Hl Hfails. revert w.
  induction pre as [|raw pre IH]; intros w Hp Hgone; cbn [app];
    rewrite deletePolicies_step.
  - rewrite Hp. cbn zeta. destruct (Hfails _ _ Hgone) as [e He].
    unfold exec. rewrite Hl, He.
    exists [(CallDelete (Name (policyMeta p)), Some e)]. split_and!.
    + unfold record. cbn [calls snd]. by rewrite He.
    + unfold policyDeletions. cbn [omap list_omap]. by rewrite Hp.
    + left. by exists e.
  - unfold policyDeletions. cbn [omap list_omap].
    destruct (policyAt (heap w) raw) as [q|] eqn:Hq.
    + cbn zeta. cbn [fmap list_fmap].
      destruct (exec l (CallDelete (Name (policyMeta q))) (store w)).1 as [e|] eqn:He.
      * exists [(CallDelete (Name (policyMeta q)), Some e)]. split_and!.
        -- unfold record. cbn [calls snd]. by rewrite He.
        -- apply prefix_cons, prefix_nil.
        -- left. by exists e.
      * set (w1 := record _ _ w).
        destruct (IH w1) as (evs & Hcalls & Hpre & Hres).
        { done. }
        { unfold w1, record, exec. cbn [store]. rewrite Hl.
          by apply Delete_keeps_gone. }
        exists ((CallDelete (Name (policyMeta q)), None) :: evs). split_and!.
        -- rewrite Hcalls. unfold w1, record. cbn [calls].
           by rewrite He, <- app_assoc.
        -- by apply prefix_cons.
        -- done.
    + exists []. split_and!.
      * by rewrite app_nil_r.
      * apply prefix_nil.
      * right. by eexists.
Qed.

(** X10.  [Remove] does not complete while its lookup lists a policy that is
    gone from the server.  Take a server that reports an error when asked to
    delete a policy that is gone, and a policy that is gone from it.  After
    any number of invocations of [Remove], by whichever lifecycles use the
    two clients and whatever their lookups list, an invocation whose policy
    lookup lists that policy, at whatever position, returns a policy deletion
    error, or panics on an earlier entry that is no policy.  Its calls are an
    initial segment of the policy deletions for the entries up to that one:
    no call is made for an entry after it, and no cluster role is deleted.
    The policy is gone afterwards as before, so the next invocation that
    lists it fares the same. *)
Theorem Remove_stuck_while_gone_policy_is_listed
    (invs : list (Lifecycle * PodSecurityPolicyTemplate)) l obj w pre a post p :
  (∀ n s, gone s n → is_Some (Delete client n s).1) →
  Forall (λ i, policies i.1 = client ∧ clusterRoles i.1 = roleClient) invs →
  policies l = client →
  gone (store w) (Name (policyMeta p)) →
  let w' := foldl (λ w0 i, (Remove i.1 i.2 w0).2) w invs in
  policyLookup l obj w' = (pre ++ a :: post, None) →
  policyAt (heap w') a = Some p →
  ((∃ e, (Remove l obj w').1
           = Returned (None, Some ("error deleting policy: " +:+ e))) ∨
   (∃ msg, (Remove l obj w').1 = Panicked msg)) ∧
  (issued w' (Remove l obj w').2).*1
    `prefix_of` policyDeletions (heap w') (pre ++ [a]) ∧
  gone (store (Remove l obj w').2) (Name (policyMeta p)).
Proof.
  intros Hfails Hinvs Hl Hgone w' Hfound Hp. unfold policyLookup in Hfound.
  assert (Hgone' : gone (store w') (Name (policyMeta p)))
    by (by apply Removes_keep_gone).
  destruct (deletePolicies_stuck l pre a post w' p Hl Hfails Hp Hgone')
    as (evs & Hcalls & Hpre & Hres).
  pose proof (deletePolicies_keeps_gone l (pre ++ a :: post) w' _ Hl Hgone')
    as Hafter.
  rewrite Remove_unfold, Hfound. cbn [fst snd]. cbn zeta.
  destruct Hres as [[e He]|[msg He]]; rewrite He; cbn [fst snd finish].
  - split_and!; [left; by exists e | by rewrite (issued_app _ _ _ Hcalls) | done].
  - split_and!; [right; by exists msg | by rewrite (issued_app _ _ _ Hcalls) | done].
Qed.

End Retry.

(** * The further properties on the small cluster *)

(** X4 on the cluster: what [Updated] sends for [p1] has the spec and the
    version of [t1]. *)
Lemma Updated_sends_stamped_specs_witness :
  (CallUpdate (synced Fixture.t1 Fixture.p1), None)
    ∈ issued Fixture.world (Updated Fixture.lifecycle Fixture.t1 Fixture.world).2 ∧
  policySpec (synced Fixture.t1 Fixture.p1) = Fixture.mkSpec false ∧
  sourceVersion (synced Fixture.t1 Fixture.p1) = "5".
Proof.
  assert (Hin : (CallUpdate (synced Fixture.t1 Fixture.p1), None)
                  ∈ issued Fixture.world
                      (Updated Fixture.lifecycle Fixture.t1 Fixture.world).2)
    by (vm_compute; left).
  split; [exact Hin|].
  destruct (Updated_sends_stamped_specs Fixture.lifecycle Fixture.t1 Fixture.world
              _ _ Hin) as (Hspec & Hver & _).
  split; [exact Hspec | exact Hver].
Defined.

(** X5 on the cluster, whose two annotation keys differ: what [Updated] sends
    for [p1] is keyed under [t1] like [p1] itself. *)
Lemma Updated_keeps_the_parent_witness :
  Fixture.versionKey ≠ Fixture.parentKey ∧
  (CallUpdate (synced Fixture.t1 Fixture.p1), None)
    ∈ issued Fixture.world (Updated Fixture.lifecycle Fixture.t1 Fixture.world).2 ∧
  policyByPSPTParentAnnotation [ObjPolicy (synced Fixture.t1 Fixture.p1)] 0
    = (["t1"], None).
Proof.
  assert (Hkeys : Fixture.versionKey ≠ Fixture.parentKey)
    by (intros Heq; vm_compute in Heq; discriminate).
  assert (Hin : (CallUpdate (synced Fixture.t1 Fixture.p1), None)
                  ∈ issued Fixture.world
                      (Updated Fixture.lifecycle Fixture.t1 Fixture.world).2)
    by (vm_compute; left).
  split_and!; [exact Hkeys | exact Hin |].
  destruct (Updated_keeps_the_parent Fixture.lifecycle Fixture.t1 Fixture.world
              _ _ Hkeys Hin) as (a & p & Ha & Hp & _ & _ & Hidx).
  rewrite (Hidx [ObjPolicy (synced Fixture.t1 Fixture.p1)] 0 eq_refl).
  assert (Hcases : a = 0 ∨ a = 1).
  { assert (Ha' : a ∈ [0; 1]) by exact Ha.
    apply elem_of_cons in Ha' as [->|Ha']; [by left|].
    apply list_elem_of_singleton in Ha' as ->. by right. }
  destruct Hcases as [-> | ->]; vm_compute; reflexivity.
Defined.

(** X6 on the cluster, with a lookup that lists [p1] and then [p4], whose
    annotation map is nil: [p1] is written, then [Updated] panics. *)
Lemma Updated_panics_on_unwritable_witness :
  policyLookup (Fixture.lifecycleListing [0; 3]) Fixture.t1 Fixture.world
    = ([0] ++ 3 :: [], None) ∧
  (Updated (Fixture.lifecycleListing [0; 3]) Fixture.t1 Fixture.world).1
    = Panicked "assignment to entry in nil map" ∧
  issued Fixture.world
    (Updated (Fixture.lifecycleListing [0; 3]) Fixture.t1 Fixture.world).2
    = [(CallUpdate (synced Fixture.t1 Fixture.p1), None)].
Proof.
  assert (Hfound : policyLookup (Fixture.lifecycleListing [0; 3]) Fixture.t1
                     Fixture.world = ([0] ++ 3 :: [], None)) by reflexivity.
  split; [exact Hfound|].
  destruct (Updated_panics_on_unwritable (Fixture.lifecycleListing [0; 3])
              Fixture.t1 Fixture.world [0] 3 [] Hfound) as (_ & Hnil & Hleft).
  - repeat constructor. exists Fixture.p1. split; [reflexivity|]. intros _.
    vm_compute. eauto.
  - unfold succeeded. vm_compute. repeat constructor.
  - split.
    + apply (Hnil Fixture.p4); [reflexivity | reflexivity | discriminate].
    + destruct Hleft as [Hev _].
      * right. exists Fixture.p4.
        split_and!; [reflexivity | reflexivity | discriminate].
      * rewrite Hev. vm_compute. reflexivity.
Defined.

(** X8 on the cluster: [Remove] leaves the same world for [t1] and for an older
    template of that name, and [Updated] for [t1] and for [t1] under another
    namespace and with other annotations. *)
Lemma handlers_read_of_the_template_witness :
  (Remove Fixture.lifecycle Fixture.t1 Fixture.world).2
    = (Remove Fixture.lifecycle Fixture.t1Older Fixture.world).2 ∧
  (Updated Fixture.lifecycle Fixture.t1 Fixture.world).2
    = (Updated Fixture.lifecycle Fixture.t1Relabelled Fixture.world).2.
Proof.
  split.
  - destruct (handlers_read_of_the_template Fixture.lifecycle Fixture.t1
                Fixture.t1Older Fixture.world eq_refl)
      as [(r0 & w' & -> & ->) _]. reflexivity.
  - destruct (handlers_read_of_the_template Fixture.lifecycle Fixture.t1
                Fixture.t1Relabelled Fixture.world eq_refl)
      as [_ Hupd].
    destruct (Hupd eq_refl eq_refl) as (r0 & w' & -> & ->). reflexivity.
Defined.

(** X9 on the cluster: after [Updated], the lookups for [t1] answer as
    before. *)
Lemma Updated_keeps_the_indices_witness :
  ByIndex (policyIndexer Fixture.lifecycle)
    (heap (Updated Fixture.lifecycle Fixture.t1 Fixture.world).2)
    policyByPSPTParentAnnotationIndex "t1"
  = ((ByIndex (policyIndexer Fixture.lifecycle) (heap Fixture.world)
        policyByPSPTParentAnnotationIndex "t1").1, None) ∧
  ByIndex (clusterRoleIndexer Fixture.lifecycle)
    (heap (Updated Fixture.lifecycle Fixture.t1 Fixture.world).2)
    clusterRoleByPSPTNameIndex "t1"
  = ((ByIndex (clusterRoleIndexer Fixture.lifecycle) (heap Fixture.world)
        clusterRoleByPSPTNameIndex "t1").1, None).
Proof.
  destruct (Updated_keeps_the_indices Fixture.lifecycle Fixture.t1 Fixture.world
              Fixture.context "t1" Fixture.t1) as (Hp & Hr & _).
  - repeat constructor.
  - repeat constructor.
  - split; [exact Hp | exact Hr].
Defined.

Lemma fakeDelete_keeps_gone n m s :
  Fixture.serverPolicies s !! n = None →
  Fixture.serverPolicies (Fixture.fakeDelete m s).2 !! n = None.
Proof.
  intros Hn. unfold Fixture.fakeDelete.
  destruct (Fixture.serverPolicies s !! m); [|done]. cbn.
  destruct (decide (m = n)) as [->|Hne]; [apply lookup_delete_eq|].
  by rewrite lookup_delete_ne.
Qed.

Lemma fakeDeleteNamespaced_keeps_gone n namespace m s :
  Fixture.serverPolicies s !! n = None →
  Fixture.serverPolicies (Fixture.fakeDeleteNamespaced namespace m s).2 !! n = None.
Proof.
  intros Hn. unfold Fixture.fakeDeleteNamespaced.
  by destruct (Fixture.serverClusterRoles s !! _).
Qed.

Lemma fakeDelete_of_gone_fails n s :
  Fixture.serverPolicies s !! n = None → is_Some (Fixture.fakeDelete n s).1.
Proof. intros Hn. unfold Fixture.fakeDelete. rewrite Hn. by eexists. Qed.

(** X10 on the cluster where [p1] is gone from the server.  A first [Remove]
    fails at [p1].  A second one whose lookup lists [p2] before [p1] deletes
    [p2] and fails at [p1] again. *)
Lemma Remove_stuck_while_gone_policy_is_listed_witness :
  let w' := (Remove Fixture.lifecycle Fixture.t1 Fixture.worldWithoutP1).2 in
  Fixture.serverPolicies (store Fixture.worldWithoutP1) !! "p1" = None ∧
  policyLookup (Fixture.lifecycleListing [1; 0]) Fixture.t1 w' = ([1] ++ 0 :: [], None) ∧
  (Remove (Fixture.lifecycleListing [1; 0]) Fixture.t1 w').1
    = Returned (None, Some "error deleting policy: not found: p1") ∧
  issued w' (Remove (Fixture.lifecycleListing [1; 0]) Fixture.t1 w').2
    = [(CallDelete "p2", None); (CallDelete "p1", Some "not found: p1")] ∧
  Fixture.serverPolicies
    (store (Remove (Fixture.lifecycleListing [1; 0]) Fixture.t1 w').2) !! "p1" = None.
Proof.
  cbn zeta.
  assert (Hgone : Fixture.serverPolicies (store Fixture.worldWithoutP1)
                    !! Name (policyMeta Fixture.p1) = None)
    by (vm_compute; reflexivity).
  destruct (Remove_stuck_while_gone_policy_is_listed
              Fixture.fakePolicies Fixture.fakeClusterRoles
              (λ s n, Fixture.serverPolicies s !! n = None)
              fakeDelete_keeps_gone fakeDeleteNamespaced_keeps_gone
              [(Fixture.lifecycle, Fixture.t1)] (Fixture.lifecycleListing [1; 0])
              Fixture.t1 Fixture.worldWithoutP1 [1] 0 [] Fixture.p1
              fakeDelete_of_gone_fails)
    as (Hres & Hpre & Hafter).
  - repeat constructor.
  - reflexivity.
  - exact Hgone.
  - reflexivity.
  - vm_compute; reflexivity.
  - split_and!.
    + exact Hgone.
    + reflexivity.
    + vm_compute; reflexivity.
    + vm_compute; reflexivity.
    + exact Hafter.
Defined.
